(** * A skeleton scVI variational auto-encoder: model and properties

    The notebook [module_user_guide.ipynb] builds a small variational
    auto-encoder for count data twice: [MyModule] writes the evidence lower
    bound by hand on top of PyTorch, [MyPyroModule] declares the same model
    and guide for Pyro.  Both use the feed-forward unit [MyNeuralNet].

    Tensors are modelled over the real numbers: a rank-1 tensor is a list of
    reals, a rank-2 tensor a list of rows.  Operations that PyTorch rejects
    with a shape error return [None].  The library calls of the notebook
    (torch.nn.Linear, ReLU, Softmax, torch.distributions) are transcribed from
    their definitions in PyTorch; rounding, overflow and the optional argument
    validation of torch.distributions are outside this model. *)

From Stdlib Require Import Reals Lra Lia.
From stdpp Require Import base option list gmap strings.

Local Open Scope R_scope.

(** ** Tensors *)

Abbreviation tensor1 := (list R).
Abbreviation tensor2 := (list (list R)).

(** Sum of the entries of a rank-1 tensor. *)
Fixpoint sum1 (v : tensor1) : R :=
  match v with
  | [] => 0
  | a :: rest => a + sum1 rest
  end.

(** [t.sum(dim=-1)] (also [dim=1]) of a rank-2 tensor. *)
Definition sum_last (t : tensor2) : tensor1 := map sum1 t.

(** [torch.sum(t, dim=1, keepdim=True)]: a column, one singleton row per row. *)
Definition sum_dim1_keepdim (t : tensor2) : tensor2 := map (λ row, [sum1 row]) t.

(** [torch.mean] of a rank-1 tensor; of an empty tensor, where PyTorch
    returns NaN, it is [0 / 0 = 0]. *)
Definition mean1 (v : tensor1) : R := sum1 v / INR (length v).

(** A unary elementwise operation on a rank-2 tensor. *)
Definition map2d {A B} (f : A → B) : list (list A) → list (list B) := map (map f).

(** PyTorch broadcasting along one dimension: sizes must agree, or one of
    them is 1 and that operand is repeated; anything else is a shape error. *)
Definition broadcast {A B C} (f : A → B → option C)
    (xs : list A) (ys : list B) : option (list C) :=
  if decide (length xs = length ys) then mapM (λ p, f p.1 p.2) (zip xs ys)
  else match xs, ys with
       | [x], _ => mapM (f x) ys
       | _, [y] => mapM (λ x, f x y) xs
       | _, _ => None
       end.

(** Binary elementwise operations with broadcasting, rank 1 and rank 2. *)
Definition ew1 {A B C} (f : A → B → C) : list A → list B → option (list C) :=
  broadcast (λ a b, Some (f a b)).

Definition ew2 {A B C} (f : A → B → C) :
    list (list A) → list (list B) → option (list (list C)) :=
  broadcast (ew1 f).

(** [torch.zeros_like], [torch.ones_like], [x.new_zeros((r, c))],
    [x.new_ones((r, c))]. *)
Definition zeros_like (t : tensor2) : tensor2 := map2d (λ _, 0) t.
Definition ones_like (t : tensor2) : tensor2 := map2d (λ _, 1) t.
Definition new_zeros (r c : nat) : tensor2 := replicate r (replicate c 0).
Definition new_ones (r c : nat) : tensor2 := replicate r (replicate c 1).

(** ** Methods: a state and error monad

    A method of a Python object reads and may write the attributes of [self]
    and may raise.  [M S A] is a computation over an object of type [S]; it
    returns the object as it is afterwards, also when it raises. *)

Definition M (S A : Type) : Type := S → option A * S.

#[global] Instance M_ret {S} : MRet (M S) := λ A a s, (Some a, s).

#[global] Instance M_bind {S} : MBind (M S) := λ A B k m s,
  match m s with
  | (Some a, s') => k a s'
  | (None, s') => (None, s')
  end.

(** Read an attribute of [self]. *)
Definition gets {S A} (f : S → A) : M S A := λ s, (Some (f s), s).

(** A library call that raises on [None]. *)
Definition lift {S A} (o : option A) : M S A := λ s, (o, s).

(** Call a method of the sub-object stored in an attribute: the callee works
    on the attribute's object, which stays in place afterwards. *)
Definition call {S T A} (get : S → T) (set : T → S → S) (m : M T A) : M S A :=
  λ s, let '(r, t) := m (get s) in (r, set t s).

Definition eval {S A} (m : M S A) (s : S) : option A := (m s).1.
Definition exec {S A} (m : M S A) (s : S) : S := (m s).2.

(** ** torch.nn layers *)

(** [torch.nn.Linear]: [weight] has [out_features] rows of [in_features]
    entries. *)
Record Linear := {
  in_features : nat;
  out_features : nat;
  weight : tensor2;
  bias : tensor1
}.

(** The values the random initialiser of a fresh [Linear] layer draws. *)
Record init_draws := {
  draw_weight : nat → nat → R;
  draw_bias : nat → R
}.

Definition Linear_init (n_in n_out : nat) (d : init_draws) : Linear :=
  {| in_features := n_in;
     out_features := n_out;
     weight := map (λ j, map (draw_weight d j) (seq 0 n_in)) (seq 0 n_out);
     bias := map (draw_bias d) (seq 0 n_out) |}.

Definition dot (x w : tensor1) : R := sum1 (zip_with Rmult x w).

(** One row through [F.linear]: [x @ weight.T + bias]. *)
Definition Linear_row (l : Linear) (x : tensor1) : option tensor1 :=
  if decide (length x = in_features l)
  then Some (zip_with (λ w b, dot x w + b) (weight l) (bias l))
  else None.

Definition Linear_forward (l : Linear) (x : tensor2) : option tensor2 :=
  mapM (Linear_row l) x.

Definition relu (x : tensor2) : tensor2 := map2d (Rmax 0) x.

(** [torch.nn.Softmax(dim=-1)]. *)
Definition softmax_row (v : tensor1) : tensor1 :=
  map (λ a, exp a / sum1 (map exp v)) v.

Definition softmax (x : tensor2) : tensor2 := map softmax_row x.

Inductive layer :=
  | Linear_layer (l : Linear)
  | ReLU.

Definition layer_forward (ly : layer) (x : tensor2) : option tensor2 :=
  match ly with
  | Linear_layer l => Linear_forward l x
  | ReLU => Some (relu x)
  end.

(** [torch.nn.Sequential]: the layers in order. *)
Fixpoint Sequential_forward (layers : list layer) (x : tensor2) : option tensor2 :=
  match layers with
  | [] => Some x
  | ly :: rest => layer_forward ly x ≫= Sequential_forward rest
  end.

(** ** MyNeuralNet *)

Module MyNeuralNet.

(** The two callables [__init__] can store in [transformation]. *)
Inductive link :=
  | Softmax_dim_last
  | torch_exp.

Record t := {
  neural_net : list layer;
  transformation : option link
}.

Definition init (n_input n_output : nat) (link_var : string)
    (fc1 fc2 : init_draws) : t :=
  {| neural_net := [Linear_layer (Linear_init n_input 128 fc1);
                    ReLU;
                    Linear_layer (Linear_init 128 n_output fc2)];
     transformation :=
       if String.eqb link_var "softmax" then Some Softmax_dim_last
       else if String.eqb link_var "exp" then Some torch_exp
       else None |}.

Definition apply_link (f : link) (output : tensor2) : tensor2 :=
  match f with
  | Softmax_dim_last => softmax output
  | torch_exp => map2d exp output
  end.

Definition forward (x : tensor2) : M t tensor2 :=
  nn ← gets neural_net;
  output ← lift (Sequential_forward nn x);
  tr ← gets transformation;
  match tr with
  | Some f => mret (apply_link f output)
  | None => mret output
  end.

End MyNeuralNet.

(** ** torch.distributions *)

(** [broadcast_all] of two rank-2 tensors. *)
Definition broadcast_all (a b : tensor2) : option (tensor2 * tensor2) :=
  ab ← ew2 pair a b; Some (map2d fst ab, map2d snd ab).

Module Normal.

Record t := { loc : tensor2; scale : tensor2 }.

(** [Normal(loc, scale)]: the constructor broadcasts its arguments. *)
Definition init (loc scale : tensor2) : option t :=
  ls ← broadcast_all loc scale; Some {| loc := ls.1; scale := ls.2 |}.

(** [rsample()]: [loc + eps * scale], where [eps] is a standard-normal
    draw of the distribution's shape; [eps i j] is the value drawn for
    entry [(i, j)]. *)
Definition rsample (d : t) (eps : nat → nat → R) : tensor2 :=
  imap (λ i row, imap (λ j ms, ms.1 + eps i j * ms.2) (zip row.1 row.2))
       (zip (loc d) (scale d)).

End Normal.

(** [kl_divergence] of two normal distributions, entry by entry
    ([torch.distributions.kl._kl_normal_normal]). *)
Definition kl (p q : Normal.t) : option tensor2 :=
  ratio ← ew2 Rdiv (Normal.scale p) (Normal.scale q);
  let var_ratio := map2d (λ r, r ^ 2) ratio in
  diff ← ew2 Rminus (Normal.loc p) (Normal.loc q);
  scaled ← ew2 Rdiv diff (Normal.scale q);
  let t1 := map2d (λ r, r ^ 2) scaled in
  s ← ew2 Rplus var_ratio t1;
  r ← ew2 Rminus (map2d (λ v, v - 1) s) (map2d ln var_ratio);
  Some (map2d (Rmult 0.5) r).

(** What the notebook takes from outside as given: the key under which scvi
    registers the count matrix, and one entry of
    [NegativeBinomial(total_count, logits).log_prob(value)]. *)
Class Externals := {
  X_KEY : string;
  nb_log_prob : R → R → R → R
}.

Module NegativeBinomial.

Record t := { total_count : tensor2; logits : tensor2 }.

(** [NegativeBinomial(total_count=theta, logits=nb_logits)] with a rank-1
    [theta]: the constructor broadcasts its arguments. *)
Definition init (total_count : tensor1) (logits : tensor2) : option t :=
  tl ← broadcast_all [total_count] logits;
  Some {| total_count := tl.1; logits := tl.2 |}.

Definition log_prob {E : Externals} (d : t) (value : tensor2) : option tensor2 :=
  params ← ew2 pair (total_count d) (logits d);
  ew2 (λ tl v, nb_log_prob tl.1 tl.2 v) params value.

End NegativeBinomial.

(** The logits of the negative binomial, as both modules write them:
    [(px_rate + 1e-4).log() - (theta + 1e-4).log()]. *)
Definition nb_logits (px_rate : tensor2) (theta : tensor1) : option tensor2 :=
  ew2 Rminus (map2d (λ v, ln (v + 1e-4)) px_rate) [map (λ v, ln (v + 1e-4)) theta].

(** The values drawn when a module is created: two layers for each of the
    three networks and [torch.randn(n_input)] for [log_theta].  The draws
    are arbitrary functions of the index, so every setting of the
    parameters, initial or trained, is the module of some draws. *)
Record module_draws := {
  decoder_fc1 : init_draws;
  decoder_fc2 : init_draws;
  log_theta_draw : nat → R;
  mean_fc1 : init_draws;
  mean_fc2 : init_draws;
  var_fc1 : init_draws;
  var_fc2 : init_draws
}.

(** scvi's [LossRecorder(loss, reconstruction_loss, kl_local, kl_global)]. *)
Module LossRecorder.
Record t := {
  loss : R;
  reconstruction_loss : tensor1;
  kl_local : tensor1;
  kl_global : R
}.
End LossRecorder.

(** ** MyModule *)

Module MyModule.

Record t := {
  decoder : MyNeuralNet.t;
  log_theta : tensor1;
  mean_encoder : MyNeuralNet.t;
  var_encoder : MyNeuralNet.t
}.

Definition set_decoder (n : MyNeuralNet.t) (self : t) : t :=
  {| decoder := n; log_theta := log_theta self;
     mean_encoder := mean_encoder self; var_encoder := var_encoder self |}.

Definition set_mean_encoder (n : MyNeuralNet.t) (self : t) : t :=
  {| decoder := decoder self; log_theta := log_theta self;
     mean_encoder := n; var_encoder := var_encoder self |}.

Definition set_var_encoder (n : MyNeuralNet.t) (self : t) : t :=
  {| decoder := decoder self; log_theta := log_theta self;
     mean_encoder := mean_encoder self; var_encoder := n |}.

Definition init (n_input n_latent : nat) (d : module_draws) : t :=
  {| decoder := MyNeuralNet.init n_latent n_input "softmax" (decoder_fc1 d) (decoder_fc2 d);
     log_theta := map (log_theta_draw d) (seq 0 n_input);
     mean_encoder := MyNeuralNet.init n_input n_latent "none" (mean_fc1 d) (mean_fc2 d);
     var_encoder := MyNeuralNet.init n_input n_latent "exp" (var_fc1 d) (var_fc2 d) |}.

(** The dictionaries the methods return. *)
Record inference_outputs := { qz_m : tensor2; qz_v : tensor2; z : tensor2 }.
Record generative_input := { input_z : tensor2; input_library : tensor2 }.
Record generative_outputs := { px_scale : tensor2; theta : tensor1; px_rate : tensor2 }.

Section methods.
Context {E : Externals}.

Definition _get_inference_input (tensors : gmap string tensor2) : M t tensor2 :=
  x ← lift (tensors !! X_KEY);
  mret x.

Definition inference (x : tensor2) (eps : nat → nat → R) : M t inference_outputs :=
  let x_ := map2d (λ v, ln (1 + v)) x in
  qz_m ← call mean_encoder set_mean_encoder (MyNeuralNet.forward x_);
  qz_v ← call var_encoder set_var_encoder (MyNeuralNet.forward x_);
  d ← lift (Normal.init qz_m (map2d sqrt qz_v));
  let z := Normal.rsample d eps in
  mret {| qz_m := qz_m; qz_v := qz_v; z := z |}.

Definition _get_generative_input (tensors : gmap string tensor2)
    (inference_outputs : inference_outputs) : M t generative_input :=
  let z := z inference_outputs in
  x ← lift (tensors !! X_KEY);
  let library := sum_dim1_keepdim x in
  mret {| input_z := z; input_library := library |}.

Definition generative (z library : tensor2) : M t generative_outputs :=
  px_scale ← call decoder set_decoder (MyNeuralNet.forward z);
  px_rate ← lift (ew2 Rmult library px_scale);
  lt ← gets log_theta;
  let theta := map exp lt in
  mret {| px_scale := px_scale; theta := theta; px_rate := px_rate |}.

(** Term 1 of the loss before the sum over features: the log-likelihood
    of every count. *)
Definition log_lik_entries (x px_rate : tensor2) (theta : tensor1) : option tensor2 :=
  logits ← nb_logits px_rate theta;
  d ← NegativeBinomial.init theta logits;
  NegativeBinomial.log_prob d x.

(** Term 2 of the loss before the sum over latent dimensions. *)
Definition kl_entries (qz_m qz_v : tensor2) : option tensor2 :=
  prior_dist ← Normal.init (zeros_like qz_m) (ones_like qz_v);
  var_post_dist ← Normal.init qz_m (map2d sqrt qz_v);
  kl var_post_dist prior_dist.

Definition loss (tensors : gmap string tensor2)
    (inference_outputs : inference_outputs)
    (generative_outputs : generative_outputs) : M t LossRecorder.t :=
  x ← lift (tensors !! X_KEY);
  let px_rate := px_rate generative_outputs in
  let theta := theta generative_outputs in
  let qz_m := qz_m inference_outputs in
  let qz_v := qz_v inference_outputs in
  lp ← lift (log_lik_entries x px_rate theta);
  let log_lik := sum_last lp in
  k ← lift (kl_entries qz_m qz_v);
  let kl_divergence := sum_last k in
  elbo ← lift (ew1 Rminus log_lik kl_divergence);
  let loss := mean1 (map Ropp elbo) in
  mret {| LossRecorder.loss := loss;
          LossRecorder.reconstruction_loss := map Ropp log_lik;
          LossRecorder.kl_local := kl_divergence;
          LossRecorder.kl_global := 0 |}.

End methods.

End MyModule.

(** ** Pyro

    A Pyro program declares its random variables with [pyro.sample]; the
    inference engine records the declarations and chooses the values.  A
    model or guide is the list of its declarations, in order; the value the
    engine gives to an unobserved site that the program goes on to use is an
    argument. *)

Inductive distribution :=
  | of_Normal (d : Normal.t)
  | of_NegativeBinomial (d : NegativeBinomial.t).

(** [d.to_event(n)]: the last [n] batch dimensions become event dimensions. *)
Record event_distribution := to_event {
  reinterpreted_batch_ndims : nat;
  base_dist : distribution
}.

Inductive statement :=
  | pyro_module (name : string)
  | pyro_sample (plate : string * nat) (name : string)
      (fn : event_distribution) (obs : option tensor2).

(** ** MyPyroModule *)

Module MyPyroModule.

Record t := {
  n_latent : nat;
  n_input : nat;
  decoder : MyNeuralNet.t;
  log_theta : tensor1;
  mean_encoder : MyNeuralNet.t;
  var_encoder : MyNeuralNet.t
}.

Definition set_decoder (n : MyNeuralNet.t) (self : t) : t :=
  {| n_latent := n_latent self; n_input := n_input self;
     decoder := n; log_theta := log_theta self;
     mean_encoder := mean_encoder self; var_encoder := var_encoder self |}.

Definition set_mean_encoder (n : MyNeuralNet.t) (self : t) : t :=
  {| n_latent := n_latent self; n_input := n_input self;
     decoder := decoder self; log_theta := log_theta self;
     mean_encoder := n; var_encoder := var_encoder self |}.

Definition set_var_encoder (n : MyNeuralNet.t) (self : t) : t :=
  {| n_latent := n_latent self; n_input := n_input self;
     decoder := decoder self; log_theta := log_theta self;
     mean_encoder := mean_encoder self; var_encoder := n |}.

Definition init (n_input n_latent : nat) (d : module_draws) : t :=
  {| n_latent := n_latent;
     n_input := n_input;
     decoder := MyNeuralNet.init n_latent n_input "softmax" (decoder_fc1 d) (decoder_fc2 d);
     log_theta := map (log_theta_draw d) (seq 0 n_input);
     mean_encoder := MyNeuralNet.init n_input n_latent "none" (mean_fc1 d) (mean_fc2 d);
     var_encoder := MyNeuralNet.init n_input n_latent "exp" (var_fc1 d) (var_fc2 d) |}.

Section methods.
Context {E : Externals}.

(** Returns [(x, library), {}]; the empty keyword dictionary is left out. *)
Definition _get_fn_args_from_batch (tensor_dict : gmap string tensor2) :
    option (tensor2 * tensor2) :=
  x ← tensor_dict !! X_KEY;
  let library := sum_dim1_keepdim x in
  Some (x, library).

(** [latent] is the value the engine gives to the site "latent". *)
Definition model (x library : tensor2) (latent : tensor2) : M t (list statement) :=
  let plate := ("data"%string, length x) in
  nl ← gets n_latent;
  let z_loc := new_zeros (length x) nl in
  let z_scale := new_ones (length x) nl in
  prior ← lift (Normal.init z_loc z_scale);
  let z := latent in
  px_scale ← call decoder set_decoder (MyNeuralNet.forward z);
  px_rate ← lift (ew2 Rmult library px_scale);
  lt ← gets log_theta;
  let theta := map exp lt in
  logits ← lift (nb_logits px_rate theta);
  x_dist ← lift (NegativeBinomial.init theta logits);
  mret [pyro_module "scvi";
        pyro_sample plate "latent" (to_event 1 (of_Normal prior)) None;
        pyro_sample plate "obs" (to_event 1 (of_NegativeBinomial x_dist)) (Some x)].

Definition guide (x log_library : tensor2) : M t (list statement) :=
  let plate := ("data"%string, length x) in
  let x_ := map2d (λ v, ln (1 + v)) x in
  qz_m ← call mean_encoder set_mean_encoder (MyNeuralNet.forward x_);
  qz_v ← call var_encoder set_var_encoder (MyNeuralNet.forward x_);
  d ← lift (Normal.init qz_m (map2d sqrt qz_v));
  mret [pyro_module "scvi";
        pyro_sample plate "latent" (to_event 1 (of_Normal d)) None].

End methods.

End MyPyroModule.

(** * Derived notions *)

(** ** Shapes and entries *)

(** Two tensors of the same shape. *)
Definition same_shape {A B} (xs : list (list A)) (ys : list (list B)) : Prop :=
  Forall2 (λ r s, length r = length s) xs ys.

(** A rank-2 tensor of [n] rows and [m] columns. *)
Definition shape {A} (n m : nat) (t : list (list A)) : Prop :=
  length t = n ∧ Forall (λ r, length r = m) t.

(** [P] holds of every entry of a rank-2 tensor. *)
Definition entries {A} (P : A → Prop) (t : list (list A)) : Prop := Forall (Forall P) t.

(** ** The values of the methods

    Each method leaves [self] as it is (lemmas [forward_run] to
    [model_run]); what it returns is the following function of [self]. *)

(** The value of [MyNeuralNet.forward]: the layers, then the link if one is
    stored. *)
Definition forward_value (n : MyNeuralNet.t) (x : tensor2) : option tensor2 :=
  output ← Sequential_forward (MyNeuralNet.neural_net n) x;
  Some (match MyNeuralNet.transformation n with
        | Some f => MyNeuralNet.apply_link f output
        | None => output
        end).

Definition inference_value (s : MyModule.t) (x : tensor2) (eps : nat → nat → R) :
    option MyModule.inference_outputs :=
  let x_ := map2d (λ v, ln (1 + v)) x in
  qz_m ← forward_value (MyModule.mean_encoder s) x_;
  qz_v ← forward_value (MyModule.var_encoder s) x_;
  d ← Normal.init qz_m (map2d sqrt qz_v);
  Some {| MyModule.qz_m := qz_m; MyModule.qz_v := qz_v;
          MyModule.z := Normal.rsample d eps |}.

Definition generative_value (s : MyModule.t) (z library : tensor2) :
    option MyModule.generative_outputs :=
  px_scale ← forward_value (MyModule.decoder s) z;
  px_rate ← ew2 Rmult library px_scale;
  Some {| MyModule.px_scale := px_scale;
          MyModule.theta := map exp (MyModule.log_theta s);
          MyModule.px_rate := px_rate |}.

Definition loss_value {E : Externals} (tensors : gmap string tensor2)
    (io : MyModule.inference_outputs) (go : MyModule.generative_outputs) :
    option LossRecorder.t :=
  x ← tensors !! X_KEY;
  lp ← MyModule.log_lik_entries x (MyModule.px_rate go) (MyModule.theta go);
  k ← MyModule.kl_entries (MyModule.qz_m io) (MyModule.qz_v io);
  elbo ← ew1 Rminus (sum_last lp) (sum_last k);
  Some {| LossRecorder.loss := mean1 (map Ropp elbo);
          LossRecorder.reconstruction_loss := map Ropp (sum_last lp);
          LossRecorder.kl_local := sum_last k;
          LossRecorder.kl_global := 0 |}.

Definition guide_value (s : MyPyroModule.t) (x : tensor2) : option (list statement) :=
  let x_ := map2d (λ v, ln (1 + v)) x in
  qz_m ← forward_value (MyPyroModule.mean_encoder s) x_;
  qz_v ← forward_value (MyPyroModule.var_encoder s) x_;
  d ← Normal.init qz_m (map2d sqrt qz_v);
  Some [pyro_module "scvi";
        pyro_sample ("data"%string, length x) "latent" (to_event 1 (of_Normal d)) None].

Definition model_value (s : MyPyroModule.t) (x library latent : tensor2) :
    option (list statement) :=
  prior ← Normal.init (new_zeros (length x) (MyPyroModule.n_latent s))
                      (new_ones (length x) (MyPyroModule.n_latent s));
  px_scale ← forward_value (MyPyroModule.decoder s) latent;
  px_rate ← ew2 Rmult library px_scale;
  logits ← nb_logits px_rate (map exp (MyPyroModule.log_theta s));
  x_dist ← NegativeBinomial.init (map exp (MyPyroModule.log_theta s)) logits;
  Some [pyro_module "scvi";
        pyro_sample ("data"%string, length x) "latent" (to_event 1 (of_Normal prior)) None;
        pyro_sample ("data"%string, length x) "obs"
          (to_event 1 (of_NegativeBinomial x_dist)) (Some x)].

(** ** The routines in the words of the specification *)


(** The closed form of the KL divergence for one latent dimension. *)
Definition spec_kl (qz_mean qz_var : R) : R :=
  0.5 * (qz_var + qz_mean ^ 2 - 1 - ln qz_var).


(** What [kl] computes for one entry with mean [p.1] and variance [p.2]
    against the standard normal, before any simplification. *)
Definition kl_of_pair (p : R * R) : R :=
  0.5 * ((sqrt p.2 / 1) ^ 2 + ((p.1 - 0) / 1) ^ 2 - 1 - ln ((sqrt p.2 / 1) ^ 2)).

(** ** Concrete values for worked instances *)

Definition zero_draws : init_draws :=
  {| draw_weight := λ _ _, 0; draw_bias := λ _, 0 |}.

Definition zero_module_draws : module_draws :=
  {| decoder_fc1 := zero_draws; decoder_fc2 := zero_draws;
     log_theta_draw := λ _, 0;
     mean_fc1 := zero_draws; mean_fc2 := zero_draws;
     var_fc1 := zero_draws; var_fc2 := zero_draws |}.

(** scvi registers the count matrix under "X"; the log-probability is a
    placeholder, no worked instance looks at its value. *)
Definition sample_externals : Externals :=
  {| X_KEY := "X"; nb_log_prob := λ _ _ _, 0 |}.

(** * Properties *)

(** ** Lists, sums and broadcasting *)

Lemma mapM_pure {A B} (f : A → B) (l : list A) :
  mapM (λ a, Some (f a)) l = Some (map f l).
Proof.
  induction l as [|a l IH]; [reflexivity|].
  cbn. rewrite IH. reflexivity.
Qed.

Lemma mapM_zip_pure {A B C} (f : A → B → C) (xs : list A) (ys : list B) :
  mapM (λ p, Some (f p.1 p.2)) (zip xs ys) = Some (zip_with f xs ys).
Proof.
  rewrite mapM_pure. f_equal.
  revert ys. induction xs as [|a xs IH]; intros [|b ys]; cbn; [done..|].
  by rewrite <- IH.
Qed.

Lemma ew1_same_length {A B C} (f : A → B → C) xs ys :
  length xs = length ys → ew1 f xs ys = Some (zip_with f xs ys).
Proof.
  intros Hlen. unfold ew1, broadcast.
  rewrite decide_True by done. apply mapM_zip_pure.
Qed.

Lemma ew1_singleton_l {A B C} (f : A → B → C) a ys :
  ew1 f [a] ys = Some (map (f a) ys).
Proof.
  unfold ew1, broadcast. case_decide as Hlen.
  - destruct ys as [|b [|??]]; try discriminate. reflexivity.
  - apply mapM_pure.
Qed.

Lemma ew1_singleton_r {A B C} (f : A → B → C) xs b :
  ew1 f xs [b] = Some (map (λ a, f a b) xs).
Proof.
  unfold ew1, broadcast. case_decide as Hlen.
  - destruct xs as [|a [|??]]; try discriminate. reflexivity.
  - destruct xs as [|a [|a' xs]]; [reflexivity|done|]. apply mapM_pure.
Qed.

Lemma ew2_same_shape {A B C} (f : A → B → C) xs ys :
  same_shape xs ys → ew2 f xs ys = Some (zip_with (zip_with f) xs ys).
Proof.
  intros Hs. unfold ew2, broadcast.
  rewrite decide_True by (eapply Forall2_length; eassumption).
  induction Hs as [|r s xs ys Hrs Hs IH]; [reflexivity|].
  cbn. rewrite (ew1_same_length f r s Hrs). cbn. rewrite IH. reflexivity.
Qed.

Lemma same_shape_refl {A} (xs : list (list A)) : same_shape xs xs.
Proof. induction xs; constructor; auto. Qed.

Lemma same_shape_map2d_l {A A' B} (g : A → A') (xs : list (list A)) (ys : list (list B)) :
  same_shape xs ys → same_shape (map2d g xs) ys.
Proof.
  induction 1; cbn; constructor; auto. by rewrite length_map.
Qed.

Lemma same_shape_map2d_r {A B B'} (g : B → B') (xs : list (list A)) (ys : list (list B)) :
  same_shape xs ys → same_shape xs (map2d g ys).
Proof.
  induction 1; cbn; constructor; auto. by rewrite length_map.
Qed.

Lemma sum1_app (u v : tensor1) : sum1 (u ++ v) = sum1 u + sum1 v.
Proof. induction u as [|a u IH]; cbn; [lra|]. rewrite IH. lra. Qed.

Lemma sum1_map_scale (c : R) (v : tensor1) :
  sum1 (map (Rmult c) v) = c * sum1 v.
Proof. induction v as [|a v IH]; cbn; [lra|]. rewrite IH. lra. Qed.

Lemma sum1_map_div {A} (f : A → R) (c : R) (v : list A) :
  sum1 (map (λ a, f a / c) v) = sum1 (map f v) / c.
Proof.
  induction v as [|a v IH]; cbn; [unfold Rdiv; ring|].
  rewrite IH. unfold Rdiv. ring.
Qed.


Lemma sum1_exp_pos (v : tensor1) : v ≠ [] → 0 < sum1 (map exp v).
Proof.
  intros Hv. destruct v as [|a v]; [done|]. clear Hv. cbn.
  assert (0 <= sum1 (map exp v)).
  { induction v as [|b v IH]; cbn; [lra|]. pose proof (exp_pos b). lra. }
  pose proof (exp_pos a). lra.
Qed.

Lemma sum1_zero (v : tensor1) : Forall (λ a, a = 0) v → sum1 v = 0.
Proof. induction 1 as [|a v Ha _ IH]; cbn; [reflexivity|]. rewrite Ha, IH. lra. Qed.

(** ** The softmax link *)

Lemma softmax_row_sum (v : tensor1) : v ≠ [] → sum1 (softmax_row v) = 1.
Proof.
  intros Hv. unfold softmax_row.
  rewrite (sum1_map_div exp). pose proof (sum1_exp_pos v Hv).
  apply Rdiv_diag. lra.
Qed.

Lemma softmax_row_length (v : tensor1) : length (softmax_row v) = length v.
Proof. unfold softmax_row. by rewrite length_map. Qed.

Lemma softmax_row_pos (v : tensor1) : Forall (λ a, 0 < a) (softmax_row v).
Proof.
  unfold softmax_row. apply Forall_map, Forall_forall. intros a Ha. cbn.
  assert (v ≠ []) as Hv by (intros ->; by apply elem_of_nil in Ha).
  pose proof (sum1_exp_pos v Hv). pose proof (exp_pos a).
  by apply Rdiv_lt_0_compat.
Qed.

(** ** Running the methods *)

Lemma bind_run {S A B} (m : M S A) (k : A → M S B) (s : S) (r : option A) :
  m s = (r, s) →
  (m ≫= k) s = match r with Some a => k a s | None => (None, s) end.
Proof. intros Hm. unfold mbind, M_bind. rewrite Hm. by destruct r. Qed.

Lemma call_run {S T A} (get : S → T) (set : T → S → S) (m : M T A) (s : S) r :
  m (get s) = (r, get s) → set (get s) s = s → call get set m s = (r, s).
Proof. intros Hm Hset. unfold call. by rewrite Hm, Hset. Qed.

Lemma forward_run (x : tensor2) (n : MyNeuralNet.t) :
  MyNeuralNet.forward x n = (forward_value n x, n).
Proof.
  unfold MyNeuralNet.forward, forward_value, mbind, M_bind, gets, lift, mret, M_ret.
  destruct (Sequential_forward _ x); cbn; [|done].
  by destruct (MyNeuralNet.transformation n).
Qed.

Lemma eval_forward (x : tensor2) (n : MyNeuralNet.t) :
  eval (MyNeuralNet.forward x) n = forward_value n x.
Proof. unfold eval. by rewrite forward_run. Qed.

Section run_MyModule.
Context {E : Externals}.
Import MyModule.

Lemma call_decoder_run (x : tensor2) (s : MyModule.t) :
  call decoder set_decoder (MyNeuralNet.forward x) s = (forward_value (decoder s) x, s).
Proof. apply call_run; [apply forward_run | by destruct s]. Qed.

Lemma call_mean_encoder_run (x : tensor2) (s : MyModule.t) :
  call mean_encoder set_mean_encoder (MyNeuralNet.forward x) s
  = (forward_value (mean_encoder s) x, s).
Proof. apply call_run; [apply forward_run | by destruct s]. Qed.

Lemma call_var_encoder_run (x : tensor2) (s : MyModule.t) :
  call var_encoder set_var_encoder (MyNeuralNet.forward x) s
  = (forward_value (var_encoder s) x, s).
Proof. apply call_run; [apply forward_run | by destruct s]. Qed.

Lemma inference_run (x : tensor2) eps (s : MyModule.t) :
  inference x eps s = (inference_value s x eps, s).
Proof.
  unfold inference, inference_value.
  rewrite (bind_run _ _ _ _ (call_mean_encoder_run _ s)).
  destruct (forward_value (mean_encoder s) _) as [m|]; [|done].
  rewrite (bind_run _ _ _ _ (call_var_encoder_run _ s)).
  destruct (forward_value (var_encoder s) _) as [v|]; [|done]. cbn.
  unfold mbind at 1, M_bind, lift.
  by destruct (Normal.init m _).
Qed.

Lemma generative_run (z library : tensor2) (s : MyModule.t) :
  generative z library s = (generative_value s z library, s).
Proof.
  unfold generative, generative_value.
  rewrite (bind_run _ _ _ _ (call_decoder_run _ s)).
  destruct (forward_value (decoder s) z) as [p|]; [|done]. cbn.
  unfold mbind at 1, M_bind, lift.
  by destruct (ew2 Rmult library p).
Qed.

Lemma loss_run tensors io go (s : MyModule.t) :
  loss tensors io go s = (loss_value tensors io go, s).
Proof.
  unfold loss, loss_value, mbind at 1, M_bind, lift.
  destruct (tensors !! X_KEY) as [x|]; [|done]. cbn.
  unfold mbind at 1, M_bind.
  destruct (log_lik_entries x _ _) as [lp|]; [|done]. cbn.
  unfold mbind at 1, M_bind.
  destruct (kl_entries _ _) as [k|]; [|done]. cbn.
  unfold mbind at 1, M_bind.
  by destruct (ew1 Rminus _ _).
Qed.

Lemma get_inference_input_run tensors (s : MyModule.t) :
  _get_inference_input tensors s = (tensors !! X_KEY, s).
Proof.
  unfold _get_inference_input, mbind, M_bind, lift.
  by destruct (tensors !! X_KEY).
Qed.

Lemma get_generative_input_run tensors io (s : MyModule.t) :
  _get_generative_input tensors io s
  = (x ← tensors !! X_KEY;
     Some {| input_z := z io; input_library := sum_dim1_keepdim x |}, s).
Proof.
  unfold _get_generative_input, mbind at 1, M_bind, lift.
  by destruct (tensors !! X_KEY).
Qed.

End run_MyModule.

(** ** Broadcasting *)

Lemma mapM_fmap_pure {A B C} (k : B → C) (g : A → option B) (l : list A) :
  mapM (λ a, k <$> g a) l = map k <$> mapM g l.
Proof.
  induction l as [|a l IH]; [reflexivity|].
  cbn. destruct (g a) as [b|]; cbn; [|done].
  rewrite IH. by destruct (mapM g l).
Qed.

Lemma mapM_map_arg {A A' B} (g : A → A') (f : A' → option B) (l : list A) :
  mapM f (map g l) = mapM (λ a, f (g a)) l.
Proof.
  induction l as [|a l IH]; [reflexivity|].
  cbn. by rewrite IH.
Qed.

Lemma mapM_ext_in {A B} (f g : A → option B) (l : list A) :
  (∀ a, a ∈ l → f a = g a) → mapM f l = mapM g l.
Proof.
  induction l as [|a l IH]; intros Hfg; [reflexivity|].
  cbn. rewrite (Hfg a) by apply list_elem_of_here.
  rewrite IH; [done|]. intros b Hb. apply Hfg. by apply list_elem_of_further.
Qed.

Lemma zip_map_both {A A' B B'} (g : A → A') (h : B → B') (xs : list A) (ys : list B) :
  zip (map g xs) (map h ys) = map (λ p, (g p.1, h p.2)) (zip xs ys).
Proof.
  revert ys. induction xs as [|a xs IH]; intros [|b ys]; cbn; [done..|].
  by rewrite IH.
Qed.

Lemma broadcast_map {A A' B B' C} (g : A → A') (h : B → B')
    (f : A' → B' → option C) (xs : list A) (ys : list B) :
  broadcast f (map g xs) (map h ys) = broadcast (λ a b, f (g a) (h b)) xs ys.
Proof.
  unfold broadcast. rewrite !length_map. case_decide as Hlen.
  - rewrite zip_map_both, mapM_map_arg. reflexivity.
  - destruct xs as [|a [|a' xs]], ys as [|b [|b' ys]]; cbn;
      rewrite ?mapM_map_arg; reflexivity.
Qed.

Lemma broadcast_fmap {A B C D} (k : C → D) (f : A → B → option C)
    (xs : list A) (ys : list B) :
  broadcast (λ a b, k <$> f a b) xs ys = map k <$> broadcast f xs ys.
Proof.
  unfold broadcast. case_decide as Hlen.
  - apply (mapM_fmap_pure k (λ p, f p.1 p.2)).
  - destruct xs as [|a [|a' xs]], ys as [|b [|b' ys]];
      first [reflexivity | apply (mapM_fmap_pure k) | done].
Qed.

Lemma broadcast_ext {A B C} (f g : A → B → option C) (xs : list A) (ys : list B) :
  (∀ a b, a ∈ xs → b ∈ ys → f a b = g a b) →
  broadcast f xs ys = broadcast g xs ys.
Proof.
  intros Hfg. unfold broadcast. case_decide as Hlen.
  - apply mapM_ext_in. intros [a b] Hab. cbn.
    apply Hfg; [eapply elem_of_zip_l | eapply elem_of_zip_r]; eassumption.
  - destruct xs as [|a [|a' xs]], ys as [|b [|b' ys]]; try reflexivity;
      apply mapM_ext_in; intros c Hc; apply Hfg;
      first [assumption | apply list_elem_of_here].
Qed.

Lemma ew1_map {A A' B B' C} (g : A → A') (h : B → B') (f : A' → B' → C) xs ys :
  ew1 f (map g xs) (map h ys) = ew1 (λ a b, f (g a) (h b)) xs ys.
Proof. unfold ew1. by rewrite broadcast_map. Qed.

Lemma ew1_post {A B C D} (k : C → D) (f : A → B → C) xs ys :
  ew1 (λ a b, k (f a b)) xs ys = map k <$> ew1 f xs ys.
Proof. unfold ew1. by rewrite <- broadcast_fmap. Qed.

Lemma ew2_map2d {A A' B B' C} (g : A → A') (h : B → B') (f : A' → B' → C) xs ys :
  ew2 f (map2d g xs) (map2d h ys) = ew2 (λ a b, f (g a) (h b)) xs ys.
Proof.
  unfold ew2, map2d. rewrite broadcast_map.
  apply broadcast_ext. intros. apply ew1_map.
Qed.

Lemma ew2_post {A B C D} (k : C → D) (f : A → B → C) xs ys :
  ew2 (λ a b, k (f a b)) xs ys = map2d k <$> ew2 f xs ys.
Proof.
  unfold ew2, map2d. rewrite <- broadcast_fmap.
  apply broadcast_ext. intros. apply ew1_post.
Qed.

(** Every elementwise operation factors through the broadcast pairs. *)
Lemma ew2_pair {A B C} (f : A → B → C) xs ys :
  ew2 f xs ys = map2d (λ p, f p.1 p.2) <$> ew2 pair xs ys.
Proof. by rewrite <- (ew2_post (λ p, f p.1 p.2) pair). Qed.

Lemma map2d_id {A} (t : list (list A)) : map2d (λ a, a) t = t.
Proof.
  unfold map2d. induction t as [|r t IH]; cbn; [done|].
  rewrite IH. f_equal. apply map_id.
Qed.

Lemma ew2_map2d_l {A A' B C} (g : A → A') (f : A' → B → C)
    (xs : list (list A)) (ys : list (list B)) :
  ew2 f (map2d g xs) ys = ew2 (λ a b, f (g a) b) xs ys.
Proof.
  rewrite <- (map2d_id ys) at 1. exact (ew2_map2d g (λ b, b) f xs ys).
Qed.

Lemma ew2_map2d_r {A B B' C} (h : B → B') (f : A → B' → C)
    (xs : list (list A)) (ys : list (list B)) :
  ew2 f xs (map2d h ys) = ew2 (λ a b, f a (h b)) xs ys.
Proof.
  rewrite <- (map2d_id xs) at 1. exact (ew2_map2d (λ a, a) h f xs ys).
Qed.

Lemma zip_with_diag {A B C D} (f : B → C → D) (g : A → B) (h : A → C) (l : list A) :
  zip_with f (map g l) (map h l) = map (λ a, f (g a) (h a)) l.
Proof. induction l as [|a l IH]; cbn; [done|]. by rewrite IH. Qed.

(** Two views of one tensor combine entry by entry. *)
Lemma ew2_diag {A B C D} (f : B → C → D) (g : A → B) (h : A → C) (t : list (list A)) :
  ew2 f (map2d g t) (map2d h t) = Some (map2d (λ a, f (g a) (h a)) t).
Proof.
  rewrite ew2_same_shape.
  - f_equal. unfold map2d. rewrite zip_with_diag.
    apply list_fmap_ext. intros _ r _. apply zip_with_diag.
  - apply same_shape_map2d_l, same_shape_map2d_r, same_shape_refl.
Qed.

Lemma mapM_Forall {A B} (P : B → Prop) (f : A → option B) (l : list A) (k : list B) :
  mapM f l = Some k → (∀ a b, a ∈ l → f a = Some b → P b) → Forall P k.
Proof.
  intros Hm HP. apply mapM_Some in Hm.
  induction Hm as [|a b l k Hab _ IH]; constructor.
  - apply (HP a b); [apply list_elem_of_here | done].
  - apply IH. intros a' b' Ha'. apply HP. by apply list_elem_of_further.
Qed.

Lemma broadcast_Forall {A B C} (P : C → Prop) (f : A → B → option C) xs ys zs :
  broadcast f xs ys = Some zs →
  (∀ a b c, a ∈ xs → b ∈ ys → f a b = Some c → P c) → Forall P zs.
Proof.
  unfold broadcast. intros Hb HP. case_decide as Hlen.
  - eapply mapM_Forall; [exact Hb|]. intros [a b] c Hab Hc.
    apply (HP a b c); [eapply elem_of_zip_l | eapply elem_of_zip_r | ]; eassumption.
  - destruct xs as [|a [|a' xs]], ys as [|b [|b' ys]]; try discriminate;
      (eapply mapM_Forall; [exact Hb|]; cbn; intros u c Hu Hc;
       first [ apply (HP a u c); [apply list_elem_of_here | assumption | assumption]
             | apply (HP u b c); [assumption | apply list_elem_of_here | assumption] ]).
Qed.

Lemma ew1_Forall {A B C} (P : C → Prop) (f : A → B → C) xs ys zs :
  ew1 f xs ys = Some zs → (∀ a b, a ∈ xs → b ∈ ys → P (f a b)) → Forall P zs.
Proof.
  intros He HP. eapply broadcast_Forall; [exact He|].
  intros a b c Ha Hb [= <-]. by apply HP.
Qed.

Lemma ew2_entries {A B C} (P : C → Prop) (Q1 : A → Prop) (Q2 : B → Prop)
    (f : A → B → C) xs ys zs :
  ew2 f xs ys = Some zs → entries Q1 xs → entries Q2 ys →
  (∀ a b, Q1 a → Q2 b → P (f a b)) → entries P zs.
Proof.
  intros He H1 H2 HP. eapply broadcast_Forall; [exact He|].
  intros r s c Hr Hs Hc. cbn in Hc. eapply ew1_Forall; [exact Hc|].
  intros a b Ha Hb. apply HP.
  - unfold entries in H1. rewrite Forall_forall in H1.
    specialize (H1 r Hr). rewrite Forall_forall in H1. by apply H1.
  - unfold entries in H2. rewrite Forall_forall in H2.
    specialize (H2 s Hs). rewrite Forall_forall in H2. by apply H2.
Qed.

Lemma entries_map2d {A B} (P : B → Prop) (f : A → B) (t : list (list A)) :
  entries (λ a, P (f a)) t → entries P (map2d f t).
Proof.
  unfold entries, map2d. intros Ht. apply Forall_map.
  eapply Forall_impl; [exact Ht|]. intros r Hr. by apply Forall_map.
Qed.

Lemma entries_impl {A} (P Q : A → Prop) (t : list (list A)) :
  entries P t → (∀ a, P a → Q a) → entries Q t.
Proof.
  unfold entries. intros Ht HPQ. eapply Forall_impl; [exact Ht|].
  intros r Hr. eapply Forall_impl; eauto.
Qed.

Lemma entries_true {A} (t : list (list A)) : entries (λ _, True) t.
Proof. unfold entries. apply Forall_forall. intros r _. by apply Forall_forall. Qed.

(** ** Shapes of the networks *)

Lemma Linear_row_length (l : Linear) (x y : tensor1) :
  Linear_row l x = Some y →
  length y = (length (weight l) `min` length (bias l))%nat.
Proof.
  unfold Linear_row. case_decide; [|done]. intros [= <-].
  by rewrite length_zip_with.
Qed.

Lemma Linear_forward_shape (l : Linear) (x y : tensor2) :
  Linear_forward l x = Some y →
  length y = length x ∧
  Forall (λ r, length r = (length (weight l) `min` length (bias l))%nat) y.
Proof.
  unfold Linear_forward. intros Hm. split.
  - apply mapM_Some in Hm. symmetry. by eapply Forall2_length.
  - eapply mapM_Forall; [exact Hm|]. intros a b _. apply Linear_row_length.
Qed.

Lemma Linear_forward_defined (l : Linear) (x : tensor2) :
  Forall (λ r, length r = in_features l) x →
  Linear_forward l x
  = Some (map (λ r, zip_with (λ w b, dot r w + b) (weight l) (bias l)) x).
Proof.
  intros Hx. unfold Linear_forward.
  rewrite <- mapM_pure. apply mapM_ext_in. intros r Hr.
  rewrite Forall_forall in Hx. unfold Linear_row.
  by rewrite decide_True by by apply Hx.
Qed.

Lemma Linear_init_widths (n_in n_out : nat) (d : init_draws) :
  (length (weight (Linear_init n_in n_out d))
   `min` length (bias (Linear_init n_in n_out d)))%nat = n_out.
Proof. unfold Linear_init. cbn. rewrite !length_map, length_seq. lia. Qed.

#[local] Arguments Linear_init : simpl never.

Lemma relu_shape (x : tensor2) (n : nat) :
  Forall (λ r, length r = n) x → Forall (λ r, length r = n) (relu x).
Proof.
  intros Hx. unfold relu, map2d. apply Forall_map.
  eapply Forall_impl; [exact Hx|]. intros r Hr. cbn. by rewrite length_map.
Qed.

Lemma init_layers_shape n_in n_out link_var fc1 fc2 (x out : tensor2) :
  Sequential_forward
    (MyNeuralNet.neural_net (MyNeuralNet.init n_in n_out link_var fc1 fc2)) x = Some out →
  length out = length x ∧ Forall (λ r, length r = n_out) out.
Proof.
  cbn. destruct (Linear_forward (Linear_init n_in 128 fc1) x) as [h|] eqn:Hh; [|done].
  cbn. destruct (Linear_forward (Linear_init 128 n_out fc2) (relu h)) as [o|] eqn:Ho; [|done].
  cbn. intros [= <-].
  apply Linear_forward_shape in Hh as [Hh1 _].
  apply Linear_forward_shape in Ho as [Ho1 Ho2].
  rewrite Linear_init_widths in Ho2. split; [|done].
  rewrite Ho1. unfold relu, map2d. by rewrite length_map.
Qed.

Lemma init_layers_defined n_in n_out link_var fc1 fc2 (x : tensor2) :
  Forall (λ r, length r = n_in) x →
  is_Some (Sequential_forward
    (MyNeuralNet.neural_net (MyNeuralNet.init n_in n_out link_var fc1 fc2)) x).
Proof.
  intros Hx. cbn.
  rewrite (Linear_forward_defined (Linear_init n_in 128 fc1)) by done. cbn.
  rewrite (Linear_forward_defined (Linear_init 128 n_out fc2)); [by eexists|].
  apply relu_shape, Forall_map, Forall_forall. intros r _.
  by rewrite length_zip_with, Linear_init_widths.
Qed.

Lemma apply_link_shape (f : MyNeuralNet.link) (t : tensor2) (n : nat) :
  Forall (λ r, length r = n) t →
  length (MyNeuralNet.apply_link f t) = length t ∧
  Forall (λ r, length r = n) (MyNeuralNet.apply_link f t).
Proof.
  intros Ht. destruct f; cbn; unfold softmax, map2d; rewrite length_map; (split; [done|]);
    apply Forall_map; (eapply Forall_impl; [exact Ht|]); intros r Hr; cbn.
  - by rewrite softmax_row_length.
  - by rewrite length_map.
Qed.

Lemma init_forward_shape n_in n_out link_var fc1 fc2 (x out : tensor2) :
  forward_value (MyNeuralNet.init n_in n_out link_var fc1 fc2) x = Some out →
  length out = length x ∧ Forall (λ r, length r = n_out) out.
Proof.
  unfold forward_value.
  destruct (Sequential_forward _ x) as [o|] eqn:Ho; [|done].
  apply init_layers_shape in Ho as [Ho1 Ho2]. cbn -[MyNeuralNet.init].
  destruct (MyNeuralNet.transformation _) as [f|]; intros [= <-]; [|done].
  destruct (apply_link_shape f o n_out Ho2) as [H1 H2]. split; [congruence|done].
Qed.

Lemma init_forward_defined n_in n_out link_var fc1 fc2 (x : tensor2) :
  Forall (λ r, length r = n_in) x →
  is_Some (forward_value (MyNeuralNet.init n_in n_out link_var fc1 fc2) x).
Proof.
  intros Hx. unfold forward_value.
  destruct (init_layers_defined n_in n_out link_var fc1 fc2 x Hx) as [o ->].
  by eexists.
Qed.

Lemma same_shape_of_widths {A B} (xs : list (list A)) (ys : list (list B)) (n : nat) :
  length xs = length ys →
  Forall (λ r, length r = n) xs → Forall (λ r, length r = n) ys →
  same_shape xs ys.
Proof.
  unfold same_shape. intros Hlen Hx. revert ys Hlen.
  induction Hx as [|r xs Hr _ IH]; intros [|s ys] Hlen Hy; try discriminate.
  - constructor.
  - inversion Hy; subst. constructor; [congruence|]. apply IH; [by injection Hlen|done].
Qed.

Section run_MyPyroModule.
Context {E : Externals}.
Import MyPyroModule.

Lemma pyro_call_decoder_run (x : tensor2) (s : MyPyroModule.t) :
  call decoder set_decoder (MyNeuralNet.forward x) s = (forward_value (decoder s) x, s).
Proof. apply call_run; [apply forward_run | by destruct s]. Qed.

Lemma pyro_call_mean_encoder_run (x : tensor2) (s : MyPyroModule.t) :
  call mean_encoder set_mean_encoder (MyNeuralNet.forward x) s
  = (forward_value (mean_encoder s) x, s).
Proof. apply call_run; [apply forward_run | by destruct s]. Qed.

Lemma pyro_call_var_encoder_run (x : tensor2) (s : MyPyroModule.t) :
  call var_encoder set_var_encoder (MyNeuralNet.forward x) s
  = (forward_value (var_encoder s) x, s).
Proof. apply call_run; [apply forward_run | by destruct s]. Qed.

Lemma guide_run (x log_library : tensor2) (s : MyPyroModule.t) :
  guide x log_library s = (guide_value s x, s).
Proof.
  unfold guide, guide_value.
  rewrite (bind_run _ _ _ _ (pyro_call_mean_encoder_run _ s)).
  destruct (forward_value (mean_encoder s) _) as [m|]; [|done].
  rewrite (bind_run _ _ _ _ (pyro_call_var_encoder_run _ s)).
  destruct (forward_value (var_encoder s) _) as [v|]; [|done]. cbn.
  unfold mbind at 1, M_bind, lift.
  by destruct (Normal.init m _).
Qed.

Lemma model_run (x library latent : tensor2) (s : MyPyroModule.t) :
  model x library latent s = (model_value s x library latent, s).
Proof.
  unfold model, model_value, mbind at 1, M_bind, gets.
  unfold mbind at 1, M_bind, lift.
  destruct (Normal.init _ _) as [prior|]; [|done]. cbn.
  rewrite (bind_run _ _ _ _ (pyro_call_decoder_run _ s)).
  destruct (forward_value (decoder s) latent) as [p|]; [|done]. cbn.
  unfold mbind at 1, M_bind.
  destruct (ew2 Rmult library p) as [r|]; [|done]. cbn.
  unfold mbind at 1, M_bind.
  destruct (nb_logits r _) as [lg|]; [|done]. cbn.
  unfold mbind at 1, M_bind.
  by destruct (NegativeBinomial.init _ lg).
Qed.

End run_MyPyroModule.

(** ** The configuration string of MyNeuralNet *)

(** C10: for every [link_var] that is neither "softmax" nor "exp" (any other
    string, not only "none"), the constructor returns a network whose
    [transformation] is [None], and [forward] returns the output of the
    layers unchanged and leaves the network as it is; the string is never
    validated. *)
Theorem unknown_link_var_is_identity (n_input n_output : nat) (link_var : string)
    (fc1 fc2 : init_draws) (x : tensor2) :
  link_var ≠ "softmax"%string → link_var ≠ "exp"%string →
  MyNeuralNet.transformation (MyNeuralNet.init n_input n_output link_var fc1 fc2) = None ∧
  MyNeuralNet.forward x (MyNeuralNet.init n_input n_output link_var fc1 fc2)
  = (Sequential_forward
       (MyNeuralNet.neural_net (MyNeuralNet.init n_input n_output link_var fc1 fc2)) x,
     MyNeuralNet.init n_input n_output link_var fc1 fc2).
Proof.
  intros Hsoftmax Hexp.
  assert (MyNeuralNet.transformation
            (MyNeuralNet.init n_input n_output link_var fc1 fc2) = None) as Hnone.
  { unfold MyNeuralNet.init. cbn.
    apply String.eqb_neq in Hsoftmax, Hexp. by rewrite Hsoftmax, Hexp. }
  split; [exact Hnone|].
  rewrite forward_run. unfold forward_value. rewrite Hnone.
  by destruct (Sequential_forward _ x).
Qed.

Lemma unknown_link_var_is_identity_witness :
  "tanh"%string ≠ "softmax"%string ∧ "tanh"%string ≠ "exp"%string ∧
  MyNeuralNet.transformation (MyNeuralNet.init 2 1 "tanh" zero_draws zero_draws) = None.
Proof.
  split; [done|]. split; [done|].
  apply (unknown_link_var_is_identity 2 1 "tanh" zero_draws zero_draws [[0; 0]]); done.
Defined.

(** ** The parameters are only read *)

(** C9: [inference], [generative] and [loss] leave the module (the weights
    and biases of the three networks and [log_theta]) exactly as it was,
    whatever their arguments and whether or not they raise. *)
Theorem parameters_unchanged {E : Externals} (s : MyModule.t) (x z library : tensor2)
    (eps : nat → nat → R) (tensors : gmap string tensor2)
    (io : MyModule.inference_outputs) (go : MyModule.generative_outputs) :
  exec (MyModule.inference x eps) s = s ∧
  exec (MyModule.generative z library) s = s ∧
  exec (MyModule.loss tensors io go) s = s.
Proof.
  unfold exec. by rewrite inference_run, generative_run, loss_run.
Qed.

(** ** The guide and its second argument *)

(** C8: the guide does the same on [(x, a)] as on [(x, b)]: its declarations,
    the site "latent" with Normal(mean_encoder(log(1+x)),
    sqrt(var_encoder(log(1+x)))), are a function of [x] alone, while
    [_get_fn_args_from_batch] passes the row sums of [x] as they are. *)
Theorem guide_ignores_log_library {E : Externals} (s : MyPyroModule.t)
    (x a b : tensor2) (tensor_dict : gmap string tensor2) :
  MyPyroModule.guide x a s = MyPyroModule.guide x b s ∧
  eval (MyPyroModule.guide x a) s
  = (qz_m ← forward_value (MyPyroModule.mean_encoder s) (map2d (λ v, ln (1 + v)) x);
     qz_v ← forward_value (MyPyroModule.var_encoder s) (map2d (λ v, ln (1 + v)) x);
     d ← Normal.init qz_m (map2d sqrt qz_v);
     Some [pyro_module "scvi";
           pyro_sample ("data"%string, length x) "latent"
             (to_event 1 (of_Normal d)) None]) ∧
  MyPyroModule._get_fn_args_from_batch tensor_dict
  = (x' ← tensor_dict !! X_KEY; Some (x', map (λ row, [sum1 row]) x')).
Proof.
  split; [reflexivity|]. split; [|reflexivity].
  unfold eval. by rewrite guide_run.
Qed.

(** ** The links of the three networks *)

Lemma forward_exp_link n_in n_out fc1 fc2 (x : tensor2) :
  forward_value (MyNeuralNet.init n_in n_out "exp" fc1 fc2) x
  = map2d exp <$> Sequential_forward
      (MyNeuralNet.neural_net (MyNeuralNet.init n_in n_out "exp" fc1 fc2)) x.
Proof. unfold forward_value. by destruct (Sequential_forward _ x). Qed.


Lemma forward_softmax_link n_in n_out fc1 fc2 (x : tensor2) :
  forward_value (MyNeuralNet.init n_in n_out "softmax" fc1 fc2) x
  = softmax <$> Sequential_forward
      (MyNeuralNet.neural_net (MyNeuralNet.init n_in n_out "softmax" fc1 fc2)) x.
Proof. unfold forward_value. by destruct (Sequential_forward _ x). Qed.

Lemma forward_exp_pos n_in n_out fc1 fc2 (x v : tensor2) :
  forward_value (MyNeuralNet.init n_in n_out "exp" fc1 fc2) x = Some v →
  entries (λ a, 0 < a) v.
Proof.
  rewrite forward_exp_link. destruct (Sequential_forward _ x) as [o|]; [|done].
  intros [= <-]. apply entries_map2d.
  eapply entries_impl; [apply entries_true|]. intros a _. apply exp_pos.
Qed.

Lemma forward_softmax_pos n_in n_out fc1 fc2 (x p : tensor2) :
  forward_value (MyNeuralNet.init n_in n_out "softmax" fc1 fc2) x = Some p →
  entries (λ a, 0 < a) p.
Proof.
  rewrite forward_softmax_link. destruct (Sequential_forward _ x) as [o|]; [|done].
  intros [= <-]. unfold entries, softmax. apply Forall_map, Forall_forall.
  intros r _. apply softmax_row_pos.
Qed.

Lemma forward_softmax_sum n_in n_out fc1 fc2 (x p : tensor2) :
  (0 < n_out)%nat →
  forward_value (MyNeuralNet.init n_in n_out "softmax" fc1 fc2) x = Some p →
  Forall (λ row, sum1 row = 1) p.
Proof.
  intros Hpos. rewrite forward_softmax_link.
  destruct (Sequential_forward _ x) as [o|] eqn:Ho; [|done].
  intros [= <-]. apply init_layers_shape in Ho as [_ Ho].
  unfold softmax. apply Forall_map. eapply Forall_impl; [exact Ho|].
  intros r Hr. cbn. apply softmax_row_sum. intros ->. cbn in Hr. lia.
Qed.

#[local] Arguments forward_value : simpl never.
#[local] Arguments Normal.init : simpl never.
#[local] Arguments NegativeBinomial.init : simpl never.
#[local] Arguments ew1 : simpl never.
#[local] Arguments ew2 : simpl never.
#[local] Arguments nb_logits : simpl never.
#[local] Arguments kl : simpl never.
#[local] Arguments MyNeuralNet.init : simpl never.

(** ** Invariants of the outputs *)



(** ** Softmax rows and the library size *)

Lemma ew2_column {A B C} (f : A → B → C) (col : list A) (t : list (list B)) :
  length col = length t →
  ew2 f (map (λ l, [l]) col) t = Some (zip_with (λ l row, map (f l) row) col t).
Proof.
  intros Hlen. unfold ew2, broadcast.
  rewrite decide_True by by rewrite length_map.
  revert t Hlen. induction col as [|l col IH]; intros [|row t] Hlen; try discriminate.
  - reflexivity.
  - cbn. rewrite ew1_singleton_l. cbn. rewrite IH by by injection Hlen. reflexivity.
Qed.

Lemma column_of_singletons {A} (t : list (list A)) :
  Forall (λ r, length r = 1%nat) t → t = map (λ l, [l]) (concat t).
Proof.
  induction 1 as [|r t Hr _ IH]; [reflexivity|].
  destruct r as [|a [|??]]; try discriminate. cbn. by rewrite <- IH.
Qed.

Lemma sum_scaled_rows (col : tensor1) (p : tensor2) :
  length col = length p → Forall (λ row, sum1 row = 1) p →
  sum_dim1_keepdim (zip_with (λ l row, map (Rmult l) row) col p) = map (λ l, [l]) col.
Proof.
  intros Hlen Hp. revert col Hlen.
  induction Hp as [|row p Hrow _ IH]; intros [|l col] Hlen; try discriminate.
  - reflexivity.
  - cbn. rewrite sum1_map_scale, Hrow, Rmult_1_r.
    f_equal. apply IH. by injection Hlen.
Qed.

(** C4, for a module with at least one feature: every row of [px_scale]
    sums to 1, and the rows of [px_rate] sum to the library size of their
    row, for every latent sample and every per-row library. *)
Theorem rows_sum_to_library (n_input n_latent : nat) (d : module_draws)
    (z library : tensor2) (go : MyModule.generative_outputs) :
  (0 < n_input)%nat →
  length library = length z →
  Forall (λ r, length r = 1%nat) library →
  eval (MyModule.generative z library) (MyModule.init n_input n_latent d) = Some go →
  Forall (λ row, sum1 row = 1) (MyModule.px_scale go) ∧
  sum_dim1_keepdim (MyModule.px_rate go) = library.
Proof.
  intros Hpos Hlen Hcol. unfold eval. rewrite generative_run.
  unfold generative_value. cbn.
  destruct (forward_value _ z) as [p|] eqn:Hp; cbn; [|done].
  destruct (ew2 Rmult library p) as [r|] eqn:Hr; cbn; [|done].
  intros [= <-]. cbn.
  pose proof (forward_softmax_sum _ _ _ _ _ _ Hpos Hp) as Hsum.
  apply init_forward_shape in Hp as [Hp _].
  split; [exact Hsum|].
  pose proof (column_of_singletons library Hcol) as Hlib.
  set (col := concat library) in Hlib. clearbody col. subst library.
  rewrite length_map in Hlen.
  rewrite ew2_column in Hr by congruence.
  injection Hr as <-. apply sum_scaled_rows; [congruence|done].
Qed.

Lemma rows_sum_to_library_witness :
  ∃ go,
    (0 < 1)%nat ∧ length [[1]] = length [[0]] ∧
    Forall (λ r : tensor1, length r = 1%nat) [[1]] ∧
    eval (MyModule.generative [[0]] [[1]]) (MyModule.init 1 1 zero_module_draws) = Some go ∧
    Forall (λ row, sum1 row = 1) (MyModule.px_scale go) ∧
    sum_dim1_keepdim (MyModule.px_rate go) = [[1]].
Proof.
  eexists. split; [lia|]. split; [reflexivity|].
  split; [by repeat constructor|]. split; [vm_compute; reflexivity|].
  apply (rows_sum_to_library 1 1 zero_module_draws [[0]] [[1]]);
    [lia | reflexivity | by repeat constructor | vm_compute; reflexivity].
Defined.

(** C4 as stated fails for a module without features: the rows of
    [px_scale] are empty and sum to 0, and so do the rows of [px_rate],
    whatever the positive library size. *)
Lemma rows_sum_counterexample :
  ∃ go,
    eval (MyModule.generative [[0]] [[1]]) (MyModule.init 0 1 zero_module_draws) = Some go ∧
    entries (λ l, 0 < l) [[1]] ∧
    ¬ Forall (λ row, sum1 row = 1) (MyModule.px_scale go) ∧
    sum_dim1_keepdim (MyModule.px_rate go) ≠ [[1]].
Proof.
  eexists. split; [vm_compute; reflexivity|].
  split; [repeat constructor; lra|]. cbn. split.
  - intros Hall. apply Forall_inv in Hall. cbn in Hall. lra.
  - intros [= Heq]. lra.
Qed.

(** ** Normal distributions of one shape *)

Lemma broadcast_all_same_shape (a b : tensor2) :
  same_shape a b → broadcast_all a b = Some (a, b).
Proof.
  intros Hs. unfold broadcast_all. rewrite ew2_same_shape by done. cbn.
  f_equal. unfold map2d. induction Hs as [|r s a b Hrs _ IH]; [reflexivity|].
  cbn. injection IH as IH1 IH2. rewrite IH1, IH2.
  f_equal; f_equal; [apply fst_zip | apply snd_zip]; lia.
Qed.

Lemma Normal_init_same_shape (a b : tensor2) :
  same_shape a b → Normal.init a b = Some {| Normal.loc := a; Normal.scale := b |}.
Proof.
  intros Hs. unfold Normal.init. by rewrite broadcast_all_same_shape.
Qed.


(** ** The Kullback-Leibler term *)

Lemma map2d_compose {A B C} (f : B → C) (g : A → B) (t : list (list A)) :
  map2d f (map2d g t) = map2d (λ a, f (g a)) t.
Proof.
  unfold map2d. rewrite map_map. apply map_ext. intros r. apply map_map.
Qed.

Lemma map2d_ext_entries {A B} (P : A → Prop) (f g : A → B) (t : list (list A)) :
  entries P t → (∀ a, P a → f a = g a) → map2d f t = map2d g t.
Proof.
  unfold entries, map2d. intros Ht Hfg.
  induction Ht as [|r t Hr _ IH]; [reflexivity|]. cbn. rewrite IH. f_equal.
  induction Hr as [|a r Ha _ IHr]; [reflexivity|]. cbn. rewrite IHr, Hfg; done.
Qed.

Lemma broadcast_all_map2d (g h : R → R) (a b : tensor2) :
  broadcast_all (map2d g a) (map2d h b)
  = (λ ab, (map2d (λ p, g p.1) ab, map2d (λ p, h p.2) ab)) <$> ew2 pair a b.
Proof.
  unfold broadcast_all. rewrite ew2_map2d, (ew2_pair (λ x y, (g x, h y))).
  destruct (ew2 pair a b) as [ab|]; cbn; [|done].
  by rewrite !map2d_compose.
Qed.

Lemma broadcast_all_map2d_r (h : R → R) (a b : tensor2) :
  broadcast_all a (map2d h b)
  = (λ ab, (map2d fst ab, map2d (λ p, h p.2) ab)) <$> ew2 pair a b.
Proof.
  unfold broadcast_all. rewrite ew2_map2d_r, (ew2_pair (λ x y, (x, h y))).
  destruct (ew2 pair a b) as [ab|]; cbn; [|done].
  by rewrite !map2d_compose.
Qed.

Lemma kl_entries_pairs (qz_m qz_v : tensor2) :
  MyModule.kl_entries qz_m qz_v = map2d kl_of_pair <$> ew2 pair qz_m qz_v.
Proof.
  unfold MyModule.kl_entries, zeros_like, ones_like, Normal.init.
  rewrite broadcast_all_map2d, broadcast_all_map2d_r.
  destruct (ew2 pair qz_m qz_v) as [ab|]; cbn; [|done].
  unfold kl. cbn.
  rewrite (ew2_diag Rdiv). cbn.
  rewrite (ew2_diag Rminus). cbn.
  rewrite (ew2_diag Rdiv). cbn.
  rewrite !map2d_compose.
  rewrite (ew2_diag Rplus). cbn.
  rewrite !map2d_compose.
  rewrite (ew2_diag Rminus). cbn.
  rewrite !map2d_compose. reflexivity.
Qed.

Lemma kl_of_pair_closed_form (p : R * R) :
  0 < p.2 → kl_of_pair p = spec_kl p.1 p.2.
Proof.
  intros Hv. unfold kl_of_pair, spec_kl.
  replace ((sqrt p.2 / 1) ^ 2) with p.2.
  - f_equal. field.
  - replace (sqrt p.2 / 1) with (sqrt p.2) by field.
    symmetry. apply pow2_sqrt. lra.
Qed.

Lemma ln_le_minus_1 (v : R) : 0 < v → ln v <= v - 1.
Proof.
  intros Hv. pose proof (exp_ineq1_le (ln v)) as Hexp.
  rewrite exp_ln in Hexp by done. lra.
Qed.

Lemma spec_kl_nonneg (m v : R) : 0 < v → 0 <= spec_kl m v.
Proof.
  intros Hv. unfold spec_kl.
  pose proof (ln_le_minus_1 v Hv). pose proof (pow2_ge_0 m). lra.
Qed.

Lemma spec_kl_standard : spec_kl 0 1 = 0.
Proof. unfold spec_kl. rewrite ln_1. lra. Qed.

Lemma ew2_pair_entries_snd {A B} (P : B → Prop) (a : list (list A)) (b : list (list B)) ab :
  ew2 pair a b = Some ab → entries P b → entries (λ p, P p.2) ab.
Proof.
  intros Hab Hb.
  eapply (ew2_entries _ (λ _, True) P pair a b ab Hab); [apply entries_true|done|].
  by intros.
Qed.

Lemma kl_entries_spec_kl (qz_m qz_v : tensor2) :
  entries (λ v, 0 < v) qz_v →
  MyModule.kl_entries qz_m qz_v = ew2 spec_kl qz_m qz_v.
Proof.
  intros Hv. rewrite kl_entries_pairs, (ew2_pair spec_kl).
  destruct (ew2 pair qz_m qz_v) as [ab|] eqn:Hab; cbn; [|done]. f_equal.
  eapply map2d_ext_entries; [by eapply ew2_pair_entries_snd|].
  intros p Hp. by apply kl_of_pair_closed_form.
Qed.

(** C5: for strictly positive [qz_v], the KL term of [loss] is, in every
    latent dimension, [0.5 * (qz_v + qz_m^2 - 1 - log qz_v)]; it is never
    negative, and it is exactly 0 at mean 0 and variance 1. *)
Theorem kl_closed_form (qz_m qz_v : tensor2) :
  entries (λ v, 0 < v) qz_v →
  MyModule.kl_entries qz_m qz_v = ew2 spec_kl qz_m qz_v ∧
  (∀ k, MyModule.kl_entries qz_m qz_v = Some k → entries (λ e, 0 <= e) k) ∧
  MyModule.kl_entries [[0]] [[1]] = Some [[0]].
Proof.
  intros Hpos.
  split; [by apply kl_entries_spec_kl|]. split.
  - intros k. rewrite (kl_entries_spec_kl _ _ Hpos). intros Hk.
    eapply (ew2_entries _ (λ _, True) (λ v, 0 < v) spec_kl qz_m qz_v k Hk);
      [apply entries_true|done|].
    intros m v _ Hv. by apply spec_kl_nonneg.
  - rewrite kl_entries_spec_kl by (repeat constructor; lra).
    unfold ew2, ew1, broadcast. cbn. by rewrite spec_kl_standard.
Qed.

Lemma kl_closed_form_witness :
  entries (λ v, 0 < v) [[1]] ∧ MyModule.kl_entries [[0]] [[1]] = Some [[0]].
Proof.
  assert (entries (λ v, 0 < v) [[1]]) as Hpos by (repeat constructor; lra).
  split; [exact Hpos|].
  apply (kl_closed_form [[0]] [[1]] Hpos).
Defined.

(** ** The loss *)




(** ** Well-shaped inputs are accepted *)

Lemma shape_same_shape {A B} (n m : nat) (a : list (list A)) (b : list (list B)) :
  shape n m a → shape n m b → same_shape a b.
Proof.
  intros [Ha1 Ha2] [Hb1 Hb2]. eapply same_shape_of_widths; [congruence|done..].
Qed.

Lemma shape_map2d {A B} (f : A → B) (n m : nat) (t : list (list A)) :
  shape n m t → shape n m (map2d f t).
Proof.
  intros [H1 H2]. split; unfold map2d; [by rewrite length_map|].
  apply Forall_map. eapply Forall_impl; [exact H2|]. intros r Hr. cbn.
  by rewrite length_map.
Qed.


Lemma shape_zip_with {A B C} (f : A → B → C) (n m : nat) a b :
  shape n m a → shape n m b → shape n m (zip_with (zip_with f) a b).
Proof.
  intros [Ha1 Ha2] [Hb1 Hb2]. split; [rewrite length_zip_with; lia|].
  clear Ha1 Hb1. revert b Hb2.
  induction Ha2 as [|r a Hr _ IH]; intros [|s b] Hb; cbn; [constructor..|].
  inversion Hb; subst. constructor; [|by apply IH].
  rewrite length_zip_with. lia.
Qed.

Lemma ew2_shape {A B C} (f : A → B → C) (n m : nat) a b :
  shape n m a → shape n m b →
  ∃ c, ew2 f a b = Some c ∧ shape n m c.
Proof.
  intros Ha Hb. exists (zip_with (zip_with f) a b). split.
  - apply ew2_same_shape. by eapply shape_same_shape.
  - by apply shape_zip_with.
Qed.

Lemma ew2_row_r {A B C} (f : A → B → C) (n m : nat) a (v : list B) :
  shape n m a → length v = m →
  ew2 f a [v] = Some (map (λ r, zip_with f r v) a).
Proof.
  intros [_ Ha] Hv. unfold ew2, broadcast.
  assert (∀ l : list (list A), Forall (λ r, length r = m) l →
            mapM (λ r, ew1 f r v) l = Some (map (λ r, zip_with f r v) l)) as Hrows.
  { intros l Hl. rewrite <- mapM_pure. apply mapM_ext_in. intros r Hr.
    rewrite Forall_forall in Hl. apply ew1_same_length.
    rewrite (Hl r Hr). done. }
  case_decide as Hlen.
  - destruct a as [|r [|??]]; try discriminate. cbn.
    rewrite ew1_same_length; [done|]. inversion Ha; subst. congruence.
  - destruct a as [|r [|r' a]]; [reflexivity|done|]. by apply Hrows.
Qed.

Lemma ew2_row_l {A B C} (f : A → B → C) (n m : nat) (v : list A) b :
  shape n m b → length v = m →
  ew2 f [v] b = Some (map (λ r, zip_with f v r) b).
Proof.
  intros [_ Hb] Hv. unfold ew2, broadcast.
  assert (∀ l : list (list B), Forall (λ r, length r = m) l →
            mapM (λ r, ew1 f v r) l = Some (map (λ r, zip_with f v r) l)) as Hrows.
  { intros l Hl. rewrite <- mapM_pure. apply mapM_ext_in. intros r Hr.
    rewrite Forall_forall in Hl. apply ew1_same_length.
    rewrite (Hl r Hr). done. }
  case_decide as Hlen.
  - destruct b as [|r [|??]]; try discriminate. cbn.
    rewrite ew1_same_length; [done|]. inversion Hb; subst. congruence.
  - by apply Hrows.
Qed.

Lemma shape_map_rows {A B} (g : list A → list B) (n m k : nat) (t : list (list A)) :
  shape n m t → (∀ r, length r = m → length (g r) = k) → shape n k (map g t).
Proof.
  intros [H1 H2] Hg. split; [by rewrite length_map|].
  apply Forall_map. eapply Forall_impl; [exact H2|]. intros r Hr. by apply Hg.
Qed.

Lemma rsample_shape (n m : nat) (a b : tensor2) (eps : nat → nat → R) :
  shape n m a → shape n m b →
  shape n m (Normal.rsample {| Normal.loc := a; Normal.scale := b |} eps).
Proof.
  intros [Ha1 Ha2] [Hb1 Hb2]. unfold Normal.rsample. cbn. split.
  - rewrite length_imap, length_zip_with. lia.
  - apply Forall_forall. intros r Hr.
    apply list_elem_of_lookup in Hr as [i Hi].
    rewrite list_lookup_imap in Hi.
    destruct (zip a b !! i) as [[r1 r2]|] eqn:Hz; [|done].
    cbn in Hi. injection Hi as <-.
    rewrite length_imap, length_zip_with.
    apply list_elem_of_lookup_2 in Hz.
    pose proof (elem_of_zip_l _ _ _ _ Hz) as H1.
    pose proof (elem_of_zip_r _ _ _ _ Hz) as H2.
    rewrite Forall_forall in Ha2, Hb2.
    cbn. rewrite (Ha2 _ H1), (Hb2 _ H2). lia.
Qed.

Lemma init_forward_total n_in n_out link_var fc1 fc2 (n : nat) (x : tensor2) :
  shape n n_in x →
  ∃ out, forward_value (MyNeuralNet.init n_in n_out link_var fc1 fc2) x = Some out ∧
         shape n n_out out.
Proof.
  intros [Hx1 Hx2].
  destruct (init_forward_defined n_in n_out link_var fc1 fc2 x Hx2) as [out Hout].
  exists out. split; [done|].
  apply init_forward_shape in Hout as [H1 H2]. split; [congruence|done].
Qed.

Lemma inference_total (n_input n_latent : nat) (d : module_draws)
    (n : nat) (x : tensor2) (eps : nat → nat → R) :
  shape n n_input x →
  ∃ io, inference_value (MyModule.init n_input n_latent d) x eps = Some io ∧
        shape n n_latent (MyModule.qz_m io) ∧
        shape n n_latent (MyModule.qz_v io) ∧
        shape n n_latent (MyModule.z io).
Proof.
  intros Hx. unfold inference_value. cbn.
  pose proof (shape_map2d (λ v, ln (1 + v)) _ _ _ Hx) as Hx'.
  destruct (init_forward_total n_input n_latent "none" (mean_fc1 d) (mean_fc2 d) n _ Hx')
    as (m & -> & Hm).
  destruct (init_forward_total n_input n_latent "exp" (var_fc1 d) (var_fc2 d) n _ Hx')
    as (v & -> & Hv). cbn.
  pose proof (shape_map2d sqrt _ _ _ Hv) as Hsv.
  rewrite Normal_init_same_shape by by eapply shape_same_shape. cbn.
  eexists. split; [reflexivity|]. cbn.
  split; [done|]. split; [done|]. by apply rsample_shape.
Qed.





Section loss_total.
Context {E : Externals}.

Lemma log_lik_entries_total (n g : nat) (x px_rate : tensor2) (theta : tensor1) :
  shape n g x → shape n g px_rate → length theta = g →
  ∃ lp, MyModule.log_lik_entries x px_rate theta = Some lp ∧ shape n g lp.
Proof.
  intros Hx Hr Ht. unfold MyModule.log_lik_entries, nb_logits.
  rewrite (ew2_row_r Rminus n g) by (by apply shape_map2d || by rewrite length_map).
  cbn.
  assert (shape n g (map (λ r : tensor1, zip_with Rminus r (map (λ v, ln (v + 1e-4)) theta))
                         (map2d (λ v, ln (v + 1e-4)) px_rate))) as Hlg.
  { eapply shape_map_rows; [by apply shape_map2d|].
    intros r Hlen. rewrite length_zip_with, length_map. lia. }
  unfold NegativeBinomial.init, broadcast_all.
  rewrite (ew2_row_l pair n g) by done. cbn.
  unfold NegativeBinomial.log_prob. cbn.
  set (ab := map (λ r, zip theta r) _).
  assert (shape n g ab) as Hab.
  { eapply shape_map_rows; [exact Hlg|].
    intros r Hlen. rewrite length_zip_with. lia. }
  destruct (ew2_shape pair n g _ _ (shape_map2d fst _ _ _ Hab) (shape_map2d snd _ _ _ Hab))
    as (params & -> & Hparams). cbn.
  by apply ew2_shape.
Qed.



End loss_total.

(** ** The inference routine *)



(** ** The all-zero batch *)


(** ** The Pyro module against the manual module *)


Lemma shape_replicate {A} (n m : nat) (c : A) : shape n m (replicate n (replicate m c)).
Proof.
  split; [by rewrite length_replicate|].
  apply Forall_replicate. by rewrite length_replicate.
Qed.

Lemma standard_normal_init (n m : nat) :
  Normal.init (new_zeros n m) (new_ones n m)
  = Some {| Normal.loc := new_zeros n m; Normal.scale := new_ones n m |}.
Proof.
  apply Normal_init_same_shape.
  eapply shape_same_shape; apply shape_replicate.
Qed.



(** * Further properties of the three classes *)

(** ** MyNeuralNet: accepted inputs and the shape of the output *)

Lemma Linear_forward_widths (l : Linear) (x y : tensor2) :
  Linear_forward l x = Some y → Forall (λ row, length row = in_features l) x.
Proof.
  unfold Linear_forward. intros Hm. apply mapM_Some in Hm.
  induction Hm as [|row out x y Hrow _ IH]; constructor; [|done].
  unfold Linear_row in Hrow. by case_decide.
Qed.

Lemma init_forward_widths n_in n_out link_var fc1 fc2 (x : tensor2) :
  is_Some (forward_value (MyNeuralNet.init n_in n_out link_var fc1 fc2) x) →
  Forall (λ row, length row = n_in) x.
Proof.
  intros [out Hout]. unfold forward_value in Hout.
  destruct (Sequential_forward _ x) as [o|] eqn:Ho; [|done].
  unfold MyNeuralNet.init in Ho. cbn in Ho.
  destruct (Linear_forward (Linear_init n_in 128 fc1) x) as [h|] eqn:Hh; [|done].
  by apply Linear_forward_widths in Hh.
Qed.



(** ** MyNeuralNet: the softmax link gives probabilities *)





(** ** MyNeuralNet: the rows of a batch do not interact *)

Lemma mapM_app_option {A B} (f : A → option B) (l k : list A) :
  mapM f (l ++ k) = (a ← mapM f l; b ← mapM f k; Some (a ++ b)).
Proof.
  induction l as [|x l IH]; cbn.
  - by destruct (mapM f k).
  - destruct (f x) as [y|]; cbn; [|done]. rewrite IH.
    destruct (mapM f l) as [a|]; cbn; [|done].
    by destruct (mapM f k).
Qed.

Lemma layer_forward_app (ly : layer) (x y : tensor2) :
  layer_forward ly (x ++ y)
  = (a ← layer_forward ly x; b ← layer_forward ly y; Some (a ++ b)).
Proof.
  destruct ly as [l|]; cbn.
  - apply mapM_app_option.
  - unfold relu, map2d. by rewrite map_app.
Qed.

Lemma Sequential_forward_app (layers : list layer) (x y : tensor2) :
  Sequential_forward layers (x ++ y)
  = (a ← Sequential_forward layers x; b ← Sequential_forward layers y; Some (a ++ b)).
Proof.
  revert x y. induction layers as [|ly rest IH]; intros x y; [reflexivity|].
  cbn. rewrite layer_forward_app.
  destruct (layer_forward ly x) as [a|]; cbn; [|done].
  destruct (layer_forward ly y) as [b|]; cbn.
  - apply IH.
  - by destruct (Sequential_forward rest a).
Qed.

(** X3: a network treats the rows of a batch one by one: on two batches put
    one after the other it returns the two outputs one after the other, and
    it raises if it raises on either part.  This holds for every network,
    with any layers and any link. *)
Theorem forward_of_stacked_batches (n : MyNeuralNet.t) (x y : tensor2) :
  eval (MyNeuralNet.forward (x ++ y)) n
  = (a ← eval (MyNeuralNet.forward x) n;
     b ← eval (MyNeuralNet.forward y) n;
     Some (a ++ b)).
Proof.
  rewrite !eval_forward. unfold forward_value. rewrite Sequential_forward_app.
  destruct (Sequential_forward _ x) as [a|]; cbn; [|done].
  destruct (Sequential_forward _ y) as [b|]; cbn; [|done].
  f_equal. destruct (MyNeuralNet.transformation n) as [[]|]; cbn; [| |done].
  - unfold softmax. by rewrite map_app.
  - unfold map2d. by rewrite map_app.
Qed.

(** ** MyModule.inference: accepted batches, shapes and the noise *)

Lemma widths_of_map2d {A B} (f : A → B) (n : nat) (x : list (list A)) :
  Forall (λ row, length row = n) (map2d f x) → Forall (λ row, length row = n) x.
Proof.
  unfold map2d. intros Hx. apply Forall_map in Hx.
  eapply Forall_impl; [exact Hx|]. intros row Hrow. cbn in Hrow.
  by rewrite length_map in Hrow.
Qed.



Lemma imap_zip_fst {A B} (f : nat → A * B → A) (l : list A) (k : list B) :
  (∀ i p, f i p = p.1) → length l = length k → imap f (zip l k) = l.
Proof.
  intros Hf. revert f Hf k.
  induction l as [|a l IH]; intros f Hf [|b k] Hlen; try discriminate; [done|].
  cbn. rewrite Hf. f_equal. apply IH; [|by injection Hlen].
  intros i p. apply Hf.
Qed.

Lemma rsample_without_noise (m s : tensor2) (eps : nat → nat → R) :
  same_shape m s → (∀ i j, eps i j = 0) →
  Normal.rsample {| Normal.loc := m; Normal.scale := s |} eps = m.
Proof.
  intros Hs Heps. unfold Normal.rsample. cbn.
  assert (∀ (f : nat → tensor1 * tensor1 → tensor1),
            (∀ i p, length p.1 = length p.2 → f i p = p.1) →
            imap f (zip m s) = m) as Hrows.
  { induction Hs as [|r1 r2 m s Hr _ IH]; intros f Hf; [done|].
    cbn. rewrite Hf by done. f_equal. apply IH. intros i p. apply Hf. }
  apply Hrows. intros i [r1 r2] Hlen. cbn in *.
  apply imap_zip_fst; [|done]. intros j [a b]. cbn. rewrite Heps. lra.
Qed.

(** X5: the noise reaches [z] and nothing else: whenever [inference]
    returns for one draw it returns for every other draw with the same
    [qz_m] and [qz_v]; and when the noise is zero, [z] is [qz_m]. *)
Theorem noise_moves_only_z (n_input n_latent : nat) (d : module_draws)
    (x : tensor2) (eps : nat → nat → R) (io : MyModule.inference_outputs) :
  eval (MyModule.inference x eps) (MyModule.init n_input n_latent d) = Some io →
  (∀ eps', ∃ io',
     eval (MyModule.inference x eps') (MyModule.init n_input n_latent d) = Some io' ∧
     MyModule.qz_m io' = MyModule.qz_m io ∧ MyModule.qz_v io' = MyModule.qz_v io) ∧
  ((∀ i j, eps i j = 0) → MyModule.z io = MyModule.qz_m io).
Proof.
  unfold eval. intros Hio. split.
  - intros eps'. rewrite inference_run in Hio |- *. cbn [fst] in *.
    unfold inference_value in *. cbn in *.
    destruct (forward_value (MyNeuralNet.init _ _ "none" _ _) _) as [m|]; cbn in *; [|done].
    destruct (forward_value (MyNeuralNet.init _ _ "exp" _ _) _) as [v|]; cbn in *; [|done].
    destruct (Normal.init m _) as [q|]; cbn in *; [|done].
    injection Hio as <-. by eexists.
  - intros Heps. rewrite inference_run in Hio. cbn [fst] in Hio.
    unfold inference_value in Hio. cbn in Hio.
    destruct (forward_value (MyNeuralNet.init _ _ "none" _ _) _) as [m|] eqn:Hm;
      cbn in Hio; [|done].
    destruct (forward_value (MyNeuralNet.init _ _ "exp" _ _) _) as [v|] eqn:Hv;
      cbn in Hio; [|done].
    apply init_forward_shape in Hm as [Hm1 Hm2], Hv as [Hv1 Hv2].
    assert (same_shape m (map2d sqrt v)) as Hs.
    { apply same_shape_map2d_r. eapply same_shape_of_widths; [congruence|done..]. }
    rewrite Normal_init_same_shape in Hio by done. cbn in Hio.
    injection Hio as <-. cbn. by apply rsample_without_noise.
Qed.

Lemma noise_moves_only_z_witness :
  ∃ io,
    eval (MyModule.inference [[0]] (λ _ _, 0)) (MyModule.init 1 1 zero_module_draws) = Some io ∧
    MyModule.z io = MyModule.qz_m io.
Proof.
  destruct (inference_total 1 1 zero_module_draws 1 [[0]] (λ _ _, 0))
    as (io & Hio & _); [split; [reflexivity|by repeat constructor]|].
  assert (eval (MyModule.inference [[0]] (λ _ _, 0))
            (MyModule.init 1 1 zero_module_draws) = Some io) as Hrun
    by (unfold eval; by rewrite inference_run).
  exists io. split; [exact Hrun|].
  apply (noise_moves_only_z 1 1 zero_module_draws [[0]] (λ _ _, 0) io Hrun). done.
Defined.

(** ** MyModule.generative: the role of the library *)

Lemma ew2_ext {A B C} (f g : A → B → C) (xs : list (list A)) (ys : list (list B)) :
  (∀ a b, f a b = g a b) → ew2 f xs ys = ew2 g xs ys.
Proof.
  intros Hfg. unfold ew2. apply broadcast_ext. intros r s _ _.
  unfold ew1. apply broadcast_ext. intros a b _ _. by rewrite Hfg.
Qed.

(** X6: the library only scales [px_rate]: multiplying every library size
    by [c] multiplies every entry of [px_rate] by [c] and leaves [px_scale]
    and [theta] as they were; [generative] raises for the scaled library
    exactly when it raises for the original one.  This holds for every
    module, whatever its parameters. *)
Theorem library_only_scales_px_rate (s : MyModule.t) (z library : tensor2) (c : R) :
  eval (MyModule.generative z (map2d (Rmult c) library)) s
  = (go ← eval (MyModule.generative z library) s;
     Some {| MyModule.px_scale := MyModule.px_scale go;
             MyModule.theta := MyModule.theta go;
             MyModule.px_rate := map2d (Rmult c) (MyModule.px_rate go) |}).
Proof.
  unfold eval. rewrite !generative_run. cbn [fst]. unfold generative_value.
  destruct (forward_value (MyModule.decoder s) z) as [p|]; cbn; [|done].
  rewrite ew2_map2d_l.
  rewrite (ew2_ext (λ a b, c * a * b) (λ a b, c * (a * b))) by (intros; ring).
  rewrite (ew2_post (Rmult c) Rmult).
  by destruct (ew2 Rmult library p).
Qed.

(** ** MyModule: the five methods in the order the trainer calls them *)

Lemma library_is_a_column (x : tensor2) :
  sum_dim1_keepdim x = map (λ l, [l]) (map sum1 x).
Proof. unfold sum_dim1_keepdim. by rewrite map_map. Qed.

Lemma generative_on_column (n_input n_latent : nat) (d : module_draws)
    (n : nat) (z : tensor2) (col : tensor1) :
  shape n n_latent z → length col = n →
  ∃ p, shape n n_input p ∧ entries (λ a, 0 < a) p ∧
       ((0 < n_input)%nat → Forall (λ row, sum1 row = 1) p) ∧
       generative_value (MyModule.init n_input n_latent d) z (map (λ l, [l]) col)
       = Some {| MyModule.px_scale := p;
                 MyModule.theta := map exp (map (log_theta_draw d) (seq 0 n_input));
                 MyModule.px_rate := zip_with (λ l row, map (Rmult l) row) col p |}.
Proof.
  intros Hz Hcol. unfold generative_value. cbn.
  destruct (init_forward_total n_latent n_input "softmax"
              (decoder_fc1 d) (decoder_fc2 d) n z Hz) as (p & Hp & Hshape).
  exists p. split; [done|]. split; [by eapply forward_softmax_pos|].
  split; [intros Hpos; by eapply forward_softmax_sum|].
  rewrite Hp. cbn. rewrite ew2_column by (destruct Hshape; congruence). done.
Qed.

Lemma shape_scaled_rows (n m : nat) (col : tensor1) (p : tensor2) :
  shape n m p → length col = n →
  shape n m (zip_with (λ l row, map (Rmult l) row) col p).
Proof.
  intros [Hp1 Hp2] Hcol. split; [rewrite length_zip_with; lia|].
  clear Hp1 Hcol. revert col.
  induction Hp2 as [|row p Hrow _ IH]; intros [|l col]; cbn; [constructor..|].
  constructor; [by rewrite length_map|apply IH].
Qed.

Section pipeline.
Context {E : Externals}.



End pipeline.


(** ** Rows without counts *)

Lemma sum1_nonneg (v : tensor1) : Forall (λ a, 0 <= a) v → 0 <= sum1 v.
Proof. induction 1 as [|a v Ha _ IH]; cbn; lra. Qed.

Lemma sum1_zero_iff (v : tensor1) :
  Forall (λ a, 0 <= a) v → sum1 v = 0 ↔ Forall (λ a, a = 0) v.
Proof.
  intros Hv. split; [|apply sum1_zero].
  induction Hv as [|a v Ha Hv IH]; cbn; [constructor|].
  intros Hsum. pose proof (sum1_nonneg v Hv).
  constructor; [lra|]. apply IH. lra.
Qed.

Lemma scaled_row_zero_iff (l : R) (p : tensor1) :
  p ≠ [] → Forall (λ a, 0 < a) p →
  Forall (λ r, r = 0) (map (Rmult l) p) ↔ l = 0.
Proof.
  intros Hne Hp. split.
  - destruct Hp as [|a p Ha _]; [done|]. cbn. intros Hall.
    apply Forall_inv in Hall. nra.
  - intros ->. apply Forall_map, Forall_forall. intros a _. cbn. lra.
Qed.

(** X8: for a batch of non-negative counts and a module with at least one
    feature, [generative], run on the [z] of [inference] and on the library
    [_get_generative_input] computes, gives a row of [px_rate] that is zero
    in every entry exactly for the rows of the batch that hold no counts. *)
Theorem rate_is_zero_exactly_on_empty_rows {E : Externals} (n_input n_latent : nat)
    (d : module_draws) (tensors : gmap string tensor2) (x : tensor2) (eps : nat → nat → R)
    (io : MyModule.inference_outputs) (gi : MyModule.generative_input)
    (go : MyModule.generative_outputs) :
  (0 < n_input)%nat →
  tensors !! X_KEY = Some x →
  entries (λ c, 0 <= c) x →
  eval (MyModule.inference x eps) (MyModule.init n_input n_latent d) = Some io →
  eval (MyModule._get_generative_input tensors io) (MyModule.init n_input n_latent d)
  = Some gi →
  eval (MyModule.generative (MyModule.input_z gi) (MyModule.input_library gi))
       (MyModule.init n_input n_latent d) = Some go →
  Forall2 (λ counts rates, Forall (λ r, r = 0) rates ↔ Forall (λ c, c = 0) counts)
          x (MyModule.px_rate go).
Proof.
  intros Hfeat Hkey Hx. unfold eval.
  rewrite inference_run, get_generative_input_run. cbn [fst]. rewrite Hkey.
  cbn [mbind option_bind]. intros Hio [= <-]. cbn [MyModule.input_z MyModule.input_library].
  rewrite generative_run. cbn [fst]. intros Hgo.
  assert (Forall (λ row, length row = n_input) x) as Hwidths.
  { unfold inference_value in Hio. cbn in Hio.
    destruct (forward_value (MyNeuralNet.init _ _ "none" _ _) _) as [m|] eqn:Hm; [|done].
    eapply widths_of_map2d, init_forward_widths. by rewrite Hm. }
  destruct (inference_total n_input n_latent d (length x) x eps) as (io' & Hio' & _ & _ & Hz);
    [by split|].
  rewrite Hio in Hio'. injection Hio' as <-.
  destruct (generative_on_column n_input n_latent d (length x) (MyModule.z io)
              (map sum1 x) Hz) as (p & [Hp1 Hp2] & Hpos & _ & Hgo');
    [by rewrite length_map|].
  rewrite library_is_a_column, Hgo' in Hgo. injection Hgo as <-. cbn.
  clear Hgo' Hio Hz Hkey Hwidths. revert p Hp1 Hp2 Hpos.
  induction Hx as [|counts x Hc _ IH]; intros [|row p] Hp1 Hp2 Hpos; try discriminate;
    cbn; constructor.
  - inversion Hp2; subst. inversion Hpos; subst.
    rewrite scaled_row_zero_iff; [by apply sum1_zero_iff| |done].
    intros ->. cbn in *. lia.
  - inversion Hp2; subst. inversion Hpos; subst.
    apply IH; [by injection Hp1|done..].
Qed.

Lemma rate_is_zero_exactly_on_empty_rows_witness :
  ∃ io gi go,
    (0 < 1)%nat ∧
    ({[ "X"%string := [[0]; [2]] ]} : gmap string tensor2) !! "X"%string = Some [[0]; [2]] ∧
    entries (λ c, 0 <= c) [[0]; [2]] ∧
    eval (MyModule.inference [[0]; [2]] (λ _ _, 0)) (MyModule.init 1 1 zero_module_draws)
    = Some io ∧
    eval (MyModule._get_generative_input (E := sample_externals)
            {[ "X"%string := [[0]; [2]] ]} io) (MyModule.init 1 1 zero_module_draws)
    = Some gi ∧
    eval (MyModule.generative (MyModule.input_z gi) (MyModule.input_library gi))
         (MyModule.init 1 1 zero_module_draws) = Some go ∧
    Forall2 (λ counts rates, Forall (λ r, r = 0) rates ↔ Forall (λ c, c = 0) counts)
            [[0]; [2]] (MyModule.px_rate go).
Proof.
  assert (entries (λ c, 0 <= c) [[0]; [2]]) as Hx by (repeat constructor; lra).
  destruct (inference_total 1 1 zero_module_draws 2 [[0]; [2]] (λ _ _, 0))
    as (io & Hio & _ & _ & Hz); [split; [reflexivity|by repeat constructor]|].
  destruct (generative_on_column 1 1 zero_module_draws 2 (MyModule.z io)
              (map sum1 [[0]; [2]]) Hz) as (p & _ & _ & _ & Hgo); [reflexivity|].
  assert (eval (MyModule.inference [[0]; [2]] (λ _ _, 0))
            (MyModule.init 1 1 zero_module_draws) = Some io) as Hrun
    by (unfold eval; by rewrite inference_run).
  assert (eval (MyModule._get_generative_input (E := sample_externals)
                  {[ "X"%string := [[0]; [2]] ]} io) (MyModule.init 1 1 zero_module_draws)
          = Some {| MyModule.input_z := MyModule.z io;
                    MyModule.input_library := sum_dim1_keepdim [[0]; [2]] |}) as Hgi
    by (unfold eval; by rewrite get_generative_input_run).
  eexists io, _, _. split; [lia|]. split; [reflexivity|]. split; [exact Hx|].
  split; [exact Hrun|]. split; [exact Hgi|].
  assert (eval (MyModule.generative (MyModule.z io) (sum_dim1_keepdim [[0]; [2]]))
            (MyModule.init 1 1 zero_module_draws) = Some _) as Hgen
    by (unfold eval; rewrite generative_run, library_is_a_column; exact Hgo).
  split; [exact Hgen|].
  exact (rate_is_zero_exactly_on_empty_rows (E := sample_externals) 1 1 zero_module_draws
           {[ "X"%string := [[0]; [2]] ]} [[0]; [2]] (λ _ _, 0) io _ _
           ltac:(lia) eq_refl Hx Hrun Hgi Hgen).
Defined.

(** ** MyModule.loss: the scalar and the two recorded terms *)

Lemma ew1_ext {A B C} (f g : A → B → C) (xs : list A) (ys : list B) :
  (∀ a b, f a b = g a b) → ew1 f xs ys = ew1 g xs ys.
Proof.
  intros Hfg. unfold ew1. apply broadcast_ext. intros a b _ _. by rewrite Hfg.
Qed.

Lemma ew1_map_l {A A' B C} (g : A → A') (f : A' → B → C) (xs : list A) (ys : list B) :
  ew1 f (map g xs) ys = ew1 (λ a b, f (g a) b) xs ys.
Proof.
  rewrite <- (map_id ys) at 1. exact (ew1_map g (λ b, b) f xs ys).
Qed.

Lemma sum1_zip_with_plus (u v : tensor1) :
  length u = length v → sum1 (zip_with Rplus u v) = sum1 u + sum1 v.
Proof.
  revert v. induction u as [|a u IH]; intros [|b v] Hlen; try discriminate; cbn; [lra|].
  rewrite IH by by injection Hlen. lra.
Qed.

Lemma kl_entries_nonneg (qz_m qz_v k : tensor2) :
  entries (λ v, 0 < v) qz_v → MyModule.kl_entries qz_m qz_v = Some k →
  entries (λ e, 0 <= e) k.
Proof.
  intros Hpos. rewrite (kl_entries_spec_kl _ _ Hpos). intros Hk.
  eapply (ew2_entries _ (λ _, True) (λ v, 0 < v) spec_kl qz_m qz_v k Hk);
    [apply entries_true|done|].
  intros m v _ Hv. by apply spec_kl_nonneg.
Qed.

(** X9: the record [loss] returns is consistent: the scalar is the mean
    over the batch of reconstruction term plus KL term, and the global KL is
    0.  When [qz_v] is strictly positive the KL term of every row is
    non-negative, so for a non-empty batch the scalar is at least the mean
    reconstruction term. *)
Theorem loss_is_mean_of_recorded_terms {E : Externals} (s : MyModule.t)
    (tensors : gmap string tensor2) (io : MyModule.inference_outputs)
    (go : MyModule.generative_outputs) (lr : LossRecorder.t) :
  eval (MyModule.loss tensors io go) s = Some lr →
  LossRecorder.kl_global lr = 0 ∧
  (∃ terms, ew1 Rplus (LossRecorder.reconstruction_loss lr) (LossRecorder.kl_local lr)
            = Some terms ∧
            LossRecorder.loss lr = mean1 terms) ∧
  (entries (λ v, 0 < v) (MyModule.qz_v io) →
   Forall (λ k, 0 <= k) (LossRecorder.kl_local lr) ∧
   (LossRecorder.reconstruction_loss lr ≠ [] →
    length (LossRecorder.reconstruction_loss lr) = length (LossRecorder.kl_local lr) →
    mean1 (LossRecorder.reconstruction_loss lr) <= LossRecorder.loss lr)).
Proof.
  unfold eval. rewrite loss_run. cbn [fst]. unfold loss_value.
  destruct (tensors !! X_KEY) as [x|]; cbn; [|done].
  destruct (MyModule.log_lik_entries x _ _) as [lp|]; cbn; [|done].
  destruct (MyModule.kl_entries _ _) as [k|] eqn:Hk; cbn; [|done].
  destruct (ew1 Rminus (sum_last lp) (sum_last k)) as [elbo|] eqn:Helbo; cbn; [|done].
  intros [= <-]. cbn.
  assert (ew1 Rplus (map Ropp (sum_last lp)) (sum_last k) = Some (map Ropp elbo)) as Hterms.
  { rewrite ew1_map_l.
    rewrite (ew1_ext (λ a b, - a + b) (λ a b, - (a - b))) by (intros; ring).
    by rewrite (ew1_post Ropp Rminus), Helbo. }
  split; [done|]. split; [by eexists|].
  intros Hpos. pose proof (kl_entries_nonneg _ _ _ Hpos Hk) as Hnonneg.
  assert (Forall (λ e, 0 <= e) (sum_last k)) as Hkl.
  { unfold sum_last. apply Forall_map. eapply Forall_impl; [exact Hnonneg|].
    intros row. apply sum1_nonneg. }
  split; [exact Hkl|]. intros Hne Hlen.
  rewrite ew1_same_length in Hterms by done. injection Hterms as <-.
  unfold mean1. rewrite length_zip_with, <- Hlen, Nat.min_id.
  rewrite sum1_zip_with_plus by done.
  pose proof (sum1_nonneg _ Hkl) as Hsum.
  assert (0 < INR (length (map Ropp (sum_last lp)))) as Hn.
  { apply lt_0_INR. destruct (map Ropp (sum_last lp)); [done|cbn; lia]. }
  apply Rmult_le_compat_r; [|lra].
  apply Rlt_le, Rinv_0_lt_compat, Hn.
Qed.

Lemma loss_is_mean_of_recorded_terms_witness :
  ∃ lr,
    eval (MyModule.loss (E := sample_externals) {[ "X"%string := [[0]] ]}
            {| MyModule.qz_m := [[0]]; MyModule.qz_v := [[1]]; MyModule.z := [[0]] |}
            {| MyModule.px_scale := [[1]]; MyModule.theta := [1]; MyModule.px_rate := [[1]] |})
         (MyModule.init 1 1 zero_module_draws) = Some lr ∧
    entries (λ v, 0 < v) [[1]] ∧
    LossRecorder.reconstruction_loss lr ≠ [] ∧
    length (LossRecorder.reconstruction_loss lr) = length (LossRecorder.kl_local lr) ∧
    mean1 (LossRecorder.reconstruction_loss lr) <= LossRecorder.loss lr.
Proof.
  assert (entries (λ v, 0 < v) [[1]]) as Hpos by (repeat constructor; lra).
  eexists. split; [vm_compute; reflexivity|]. split; [exact Hpos|].
  split; [done|]. split; [reflexivity|].
  apply (loss_is_mean_of_recorded_terms (E := sample_externals)
           (MyModule.init 1 1 zero_module_draws) {[ "X"%string := [[0]] ]}
           {| MyModule.qz_m := [[0]]; MyModule.qz_v := [[1]]; MyModule.z := [[0]] |}
           {| MyModule.px_scale := [[1]]; MyModule.theta := [1]; MyModule.px_rate := [[1]] |});
    [vm_compute; reflexivity | exact Hpos | done | reflexivity].
Defined.

(** ** The KL term vanishes only at the prior *)




(** ** The batch dictionary *)

(** X11: the methods read the batch dictionary under [X_KEY] only.
    Without that key [_get_inference_input], [_get_generative_input] and
    [loss] raise and leave the module as it was, and
    [_get_fn_args_from_batch] raises; two dictionaries with the same entry
    under [X_KEY] give the same results, so registering any other tensor
    changes nothing; and the library the Pyro module receives is the library
    [generative] receives. *)
Theorem only_the_count_matrix_is_read {E : Externals} (s : MyModule.t)
    (tensors tensors' : gmap string tensor2)
    (io : MyModule.inference_outputs) (go : MyModule.generative_outputs) :
  (tensors !! X_KEY = None →
   MyModule._get_inference_input tensors s = (None, s) ∧
   MyModule._get_generative_input tensors io s = (None, s) ∧
   MyModule.loss tensors io go s = (None, s) ∧
   MyPyroModule._get_fn_args_from_batch tensors = None) ∧
  (tensors !! X_KEY = tensors' !! X_KEY →
   MyModule._get_inference_input tensors s = MyModule._get_inference_input tensors' s ∧
   MyModule._get_generative_input tensors io s
   = MyModule._get_generative_input tensors' io s ∧
   MyModule.loss tensors io go s = MyModule.loss tensors' io go s ∧
   MyPyroModule._get_fn_args_from_batch tensors
   = MyPyroModule._get_fn_args_from_batch tensors') ∧
  (∀ key t, key ≠ X_KEY →
   MyModule._get_inference_input (<[key := t]> tensors) s
   = MyModule._get_inference_input tensors s ∧
   MyModule._get_generative_input (<[key := t]> tensors) io s
   = MyModule._get_generative_input tensors io s ∧
   MyModule.loss (<[key := t]> tensors) io go s = MyModule.loss tensors io go s ∧
   MyPyroModule._get_fn_args_from_batch (<[key := t]> tensors)
   = MyPyroModule._get_fn_args_from_batch tensors) ∧
  snd <$> MyPyroModule._get_fn_args_from_batch tensors
  = MyModule.input_library <$> eval (MyModule._get_generative_input tensors io) s.
Proof.
  assert (∀ t1 t2 : gmap string tensor2, t1 !! X_KEY = t2 !! X_KEY →
            MyModule._get_inference_input t1 s = MyModule._get_inference_input t2 s ∧
            MyModule._get_generative_input t1 io s = MyModule._get_generative_input t2 io s ∧
            MyModule.loss t1 io go s = MyModule.loss t2 io go s ∧
            MyPyroModule._get_fn_args_from_batch t1 = MyPyroModule._get_fn_args_from_batch t2)
    as Hsame.
  { intros t1 t2 Heq.
    rewrite !get_inference_input_run, !get_generative_input_run, !loss_run.
    unfold loss_value, MyPyroModule._get_fn_args_from_batch. by rewrite Heq. }
  split; [|split; [apply Hsame|split]].
  - intros Hnone.
    rewrite get_inference_input_run, get_generative_input_run, loss_run.
    unfold loss_value, MyPyroModule._get_fn_args_from_batch. by rewrite Hnone.
  - intros key t Hkey. apply Hsame. by rewrite lookup_insert_ne.
  - unfold eval. rewrite get_generative_input_run. cbn [fst].
    unfold MyPyroModule._get_fn_args_from_batch.
    by destruct (tensors !! X_KEY).
Qed.

Lemma only_the_count_matrix_is_read_witness :
  (∅ : gmap string tensor2) !! "X"%string = None ∧
  MyPyroModule._get_fn_args_from_batch (E := sample_externals) ∅ = None ∧
  "batch"%string ≠ "X"%string ∧
  MyPyroModule._get_fn_args_from_batch (E := sample_externals)
    (<["batch"%string := [[1]]]> {[ "X"%string := [[2; 3]] ]})
  = MyPyroModule._get_fn_args_from_batch (E := sample_externals) {[ "X"%string := [[2; 3]] ]}.
Proof.
  pose proof (only_the_count_matrix_is_read (E := sample_externals)
                (MyModule.init 1 1 zero_module_draws) ∅ ∅
                {| MyModule.qz_m := []; MyModule.qz_v := []; MyModule.z := [] |}
                {| MyModule.px_scale := []; MyModule.theta := []; MyModule.px_rate := [] |})
    as (Hmissing & _).
  pose proof (only_the_count_matrix_is_read (E := sample_externals)
                (MyModule.init 1 1 zero_module_draws) {[ "X"%string := [[2; 3]] ]} ∅
                {| MyModule.qz_m := []; MyModule.qz_v := []; MyModule.z := [] |}
                {| MyModule.px_scale := []; MyModule.theta := []; MyModule.px_rate := [] |})
    as (_ & _ & Hother & _).
  split; [reflexivity|]. split; [apply Hmissing; reflexivity|].
  split; [done|]. apply (Hother "batch"%string [[1]]). done.
Defined.

(** ** MyPyroModule: parameters, sites and accepted batches *)

(** X12: [model] and [guide] only read the module: after either of them
    the module is exactly as it was, for all arguments and also when they
    raise. *)
Theorem pyro_parameters_unchanged (s : MyPyroModule.t)
    (x library log_library latent : tensor2) :
  exec (MyPyroModule.model x library latent) s = s ∧
  exec (MyPyroModule.guide x log_library) s = s.
Proof.
  unfold exec. by rewrite model_run, guide_run.
Qed.

Lemma sqrt_exp_entries_pos n_in n_out fc1 fc2 (x v : tensor2) :
  forward_value (MyNeuralNet.init n_in n_out "exp" fc1 fc2) x = Some v →
  entries (λ a, 0 < a) (map2d sqrt v).
Proof.
  intros Hv. apply entries_map2d.
  eapply entries_impl; [by eapply forward_exp_pos|].
  intros a Ha. by apply sqrt_lt_R0.
Qed.

(** X13: the guide declares exactly the unobserved site of the model:
    whenever both return, the model has the sites "latent" and "obs" and the
    guide the site "latent" alone, all in the plate "data" of the size of
    the batch and with one event dimension; prior and variational
    distribution have the same shape, one row of [n_latent] entries for
    each row of the batch, and the scale of the variational distribution is
    strictly positive. *)
Theorem guide_declares_the_latent_site_of_model
    (n_input n_latent : nat) (d : module_draws)
    (x library log_library latent : tensor2) (ms gs : list statement) :
  eval (MyPyroModule.model x library latent) (MyPyroModule.init n_input n_latent d)
  = Some ms →
  eval (MyPyroModule.guide x log_library) (MyPyroModule.init n_input n_latent d)
  = Some gs →
  ∃ prior q x_dist,
    ms = [pyro_module "scvi";
          pyro_sample ("data"%string, length x) "latent" (to_event 1 (of_Normal prior)) None;
          pyro_sample ("data"%string, length x) "obs"
            (to_event 1 (of_NegativeBinomial x_dist)) (Some x)] ∧
    gs = [pyro_module "scvi";
          pyro_sample ("data"%string, length x) "latent" (to_event 1 (of_Normal q)) None] ∧
    shape (length x) n_latent (Normal.loc prior) ∧
    shape (length x) n_latent (Normal.scale prior) ∧
    shape (length x) n_latent (Normal.loc q) ∧
    shape (length x) n_latent (Normal.scale q) ∧
    entries (λ a, 0 < a) (Normal.scale q).
Proof.
  unfold eval. rewrite model_run, guide_run. cbn [fst].
  unfold model_value, guide_value. cbn.
  rewrite standard_normal_init. cbn.
  destruct (forward_value (MyNeuralNet.init _ _ "softmax" _ _) latent) as [p|]; cbn; [|done].
  destruct (ew2 Rmult library p) as [r|]; cbn; [|done].
  destruct (nb_logits r _) as [lg|]; cbn; [|done].
  destruct (NegativeBinomial.init _ lg) as [x_dist|]; cbn; [|done].
  intros [= <-].
  destruct (forward_value (MyNeuralNet.init _ _ "none" _ _) _) as [m|] eqn:Hm; cbn; [|done].
  destruct (forward_value (MyNeuralNet.init _ _ "exp" _ _) _) as [v|] eqn:Hv; cbn; [|done].
  pose proof (sqrt_exp_entries_pos _ _ _ _ _ _ Hv) as Hscale.
  apply init_forward_shape in Hm as [Hm1 Hm2], Hv as [Hv1 Hv2].
  unfold map2d in Hm1, Hv1. rewrite length_map in Hm1, Hv1.
  assert (shape (length x) n_latent m) as Hsm by by split.
  assert (shape (length x) n_latent (map2d sqrt v)) as Hsv by (by apply shape_map2d).
  rewrite Normal_init_same_shape by by eapply shape_same_shape.
  cbn. intros [= <-].
  eexists _, _, _. split; [reflexivity|]. split; [reflexivity|]. cbn.
  split; [apply shape_replicate|]. split; [apply shape_replicate|]. done.
Qed.

Lemma guide_value_total (n_input n_latent : nat) (d : module_draws) (x : tensor2) :
  Forall (λ row, length row = n_input) x →
  is_Some (guide_value (MyPyroModule.init n_input n_latent d) x).
Proof.
  intros Hx. assert (shape (length x) n_input x) as Hsx by by split.
  unfold guide_value. cbn.
  pose proof (shape_map2d (λ v, ln (1 + v)) _ _ _ Hsx) as Hx'.
  destruct (init_forward_total n_input n_latent "none" (mean_fc1 d) (mean_fc2 d) _ _ Hx')
    as (m & -> & Hm).
  destruct (init_forward_total n_input n_latent "exp" (var_fc1 d) (var_fc2 d) _ _ Hx')
    as (v & -> & Hv). cbn.
  rewrite Normal_init_same_shape
    by (eapply shape_same_shape; [done|by apply shape_map2d]).
  by eexists.
Qed.

Lemma model_value_total {E : Externals} (n_input n_latent : nat) (d : module_draws)
    (x latent : tensor2) :
  Forall (λ row, length row = n_input) x →
  shape (length x) n_latent latent →
  is_Some (model_value (MyPyroModule.init n_input n_latent d) x (sum_dim1_keepdim x) latent).
Proof.
  intros Hx Hlatent. assert (shape (length x) n_input x) as Hsx by by split.
  unfold model_value. cbn. rewrite standard_normal_init. cbn.
  destruct (init_forward_total n_latent n_input "softmax"
              (decoder_fc1 d) (decoder_fc2 d) _ _ Hlatent) as (p & -> & Hp). cbn.
  rewrite library_is_a_column, ew2_column
    by (rewrite length_map; destruct Hp; congruence). cbn.
  set (r := zip_with _ _ p).
  assert (shape (length x) n_input r) as Hr
    by (apply shape_scaled_rows; [done|by rewrite length_map]).
  destruct (log_lik_entries_total (length x) n_input x r
              (map exp (map (log_theta_draw d) (seq 0 n_input))) Hsx Hr)
    as (lp & Hlp & _); [by rewrite !length_map, length_seq|].
  unfold MyModule.log_lik_entries in Hlp.
  destruct (nb_logits r _) as [lg|]; cbn in *; [|done].
  destruct (NegativeBinomial.init _ lg); cbn in *; [|done]. by eexists.
Qed.

Lemma guide_declares_the_latent_site_of_model_witness :
  ∃ ms gs q,
    eval (MyPyroModule.model [[0]] (sum_dim1_keepdim [[0]]) [[0]])
         (MyPyroModule.init 1 1 zero_module_draws) = Some ms ∧
    eval (MyPyroModule.guide [[0]] [[0]]) (MyPyroModule.init 1 1 zero_module_draws)
    = Some gs ∧
    gs = [pyro_module "scvi";
          pyro_sample ("data"%string, length [[0]]) "latent" (to_event 1 (of_Normal q)) None] ∧
    shape (length [[0]]) 1 (Normal.loc q).
Proof.
  assert (Forall (λ row : tensor1, length row = 1%nat) [[0]]) as Hx
    by (by repeat constructor).
  destruct (model_value_total (E := sample_externals) 1 1 zero_module_draws [[0]] [[0]] Hx)
    as [ms Hms]; [split; [reflexivity|by repeat constructor]|].
  destruct (guide_value_total 1 1 zero_module_draws [[0]] Hx) as [gs Hgs].
  assert (eval (MyPyroModule.model [[0]] (sum_dim1_keepdim [[0]]) [[0]])
            (MyPyroModule.init 1 1 zero_module_draws) = Some ms) as Hmodel
    by (unfold eval; by rewrite model_run).
  assert (eval (MyPyroModule.guide [[0]] [[0]]) (MyPyroModule.init 1 1 zero_module_draws)
          = Some gs) as Hguide
    by (unfold eval; by rewrite guide_run).
  destruct (guide_declares_the_latent_site_of_model 1 1
              zero_module_draws [[0]] (sum_dim1_keepdim [[0]]) [[0]] [[0]] ms gs Hmodel Hguide)
    as (prior & q & x_dist & _ & Hgs_eq & _ & _ & Hq & _).
  exists ms, gs, q. done.
Defined.



(** ** The logits of the negative binomial *)

Lemma ew2_ext_entries {A B C} (P : A → Prop) (Q : B → Prop) (f g : A → B → C)
    (xs : list (list A)) (ys : list (list B)) :
  entries P xs → entries Q ys → (∀ a b, P a → Q b → f a b = g a b) →
  ew2 f xs ys = ew2 g xs ys.
Proof.
  intros Hxs Hys Hfg. rewrite (ew2_pair f), (ew2_pair g).
  destruct (ew2 pair xs ys) as [ab|] eqn:Hab; cbn; [|done]. f_equal.
  apply (map2d_ext_entries (λ p, P p.1 ∧ Q p.2)).
  - eapply (ew2_entries _ P Q pair xs ys ab Hab); [done..|]. by intros.
  - intros [a b] [Ha Hb]. by apply Hfg.
Qed.

(** X15: for non-negative [px_rate] and strictly positive [theta], as
    [generative] returns them for a non-negative library, the logits both
    modules hand to the negative binomial are the logarithm of
    [(px_rate + 1e-4) / (theta + 1e-4)] entry by entry, so their
    exponential is that ratio, with [theta] used for every row. *)
Theorem logits_are_log_of_stabilised_ratio (px_rate : tensor2) (theta : tensor1) :
  entries (λ r, 0 <= r) px_rate →
  Forall (λ t, 0 < t) theta →
  nb_logits px_rate theta
  = ew2 (λ r t, ln ((r + 1e-4) / (t + 1e-4))) px_rate [theta] ∧
  map2d exp <$> nb_logits px_rate theta
  = ew2 (λ r t, (r + 1e-4) / (t + 1e-4)) px_rate [theta].
Proof.
  intros Hrate Htheta.
  assert (entries (λ t, 0 < t) [theta]) as Htheta' by (by constructor).
  assert (nb_logits px_rate theta
          = ew2 (λ r t, ln ((r + 1e-4) / (t + 1e-4))) px_rate [theta]) as Hlog.
  { unfold nb_logits.
    change [map (λ v, ln (v + 1e-4)) theta] with (map2d (λ v, ln (v + 1e-4)) [theta]).
    rewrite ew2_map2d.
    apply (ew2_ext_entries (λ r, 0 <= r) (λ t, 0 < t)); [done..|].
    intros r t Hr Ht. cbv beta. unfold Rdiv.
    rewrite ln_mult, ln_Rinv; [reflexivity|lra..|apply Rinv_0_lt_compat; lra]. }
  split; [exact Hlog|].
  rewrite Hlog, <- (ew2_post exp).
  apply (ew2_ext_entries (λ r, 0 <= r) (λ t, 0 < t)); [done..|].
  intros r t Hr Ht. cbv beta. apply exp_ln. apply Rdiv_lt_0_compat; lra.
Qed.

Lemma logits_are_log_of_stabilised_ratio_witness :
  entries (λ r, 0 <= r) [[0; 3]] ∧ Forall (λ t, 0 < t) [1; 2] ∧
  nb_logits [[0; 3]] [1; 2]
  = ew2 (λ r t, ln ((r + 1e-4) / (t + 1e-4))) [[0; 3]] [[1; 2]].
Proof.
  assert (entries (λ r, 0 <= r) [[0; 3]]) as Hr by (repeat constructor; lra).
  assert (Forall (λ t, 0 < t) [1; 2]) as Ht by (repeat constructor; lra).
  split; [exact Hr|]. split; [exact Ht|].
  apply (logits_are_log_of_stabilised_ratio [[0; 3]] [1; 2] Hr Ht).
Defined.

(** ** MyModule.generative: accepted latent values and libraries *)




